(** * Aurora monitor: scheduler and threshold-crossing logic

    A shallow embedding of [clock.py] (class [Clock]) and [aurora.py]
    (class [Aurora]) and the properties of the scheduler and of the
    one-shot-per-level threshold detection.

    Conventions of the embedding:
    - Python [int] is [Z]; a number read from a JSON feed ([int] or finite
      [float]) is a rational [Q], and comparing it with an [int] is the exact
      comparison, as in Python;
    - a [dict] whose iteration order matters ([Clock.events], the result of
      [make_step]) is an association list in insertion order; the coordinate
      map, read by key and for its largest value, is a [gmap];
    - an exception is a value of [exn]; a method that mutates [self] and may
      raise returns the state it leaves behind together with [inl e] or
      [inr result];
    - the outside world (wall clock, HTTP answers) is an explicit input. *)

From Stdlib Require Import ZArith QArith Qminmax Bool List String Ascii Lia Sorted.
From stdpp Require Import base gmap list strings.
Import ListNotations.
Local Open Scope Z_scope.

(** ** Exceptions *)

Inductive endpoint := AURORA_URL | K_INDEX_URL | PUSH_URL.

Inductive exn :=
| ConnectionError (origin : endpoint) (status_code : Z) (content : string)
| ValueError
| KeyError
| IndexError.

(** ** Insertion-ordered dictionaries with integer keys *)

Section Dict.
Context {V : Type}.

Definition dict := list (Z * V).

Definition keys (d : dict) : list Z := map fst d.

(** [d.get(k)] *)
Fixpoint dict_get (k : Z) (d : dict) : option V :=
  match d with
  | [] => None
  | (k', v) :: d' => if k' =? k then Some v else dict_get k d'
  end.

(** [d[k] = v]: an existing key keeps its position, a new one goes last. *)
Fixpoint dict_set (k : Z) (v : V) (d : dict) : dict :=
  match d with
  | [] => [(k, v)]
  | (k', v') :: d' =>
      if k' =? k then (k, v) :: d' else (k', v') :: dict_set k v d'
  end.

(** [d.pop(k, None)] *)
Fixpoint dict_pop (k : Z) (d : dict) : dict :=
  match d with
  | [] => []
  | (k', v) :: d' => if k' =? k then d' else (k', v) :: dict_pop k d'
  end.
End Dict.

Arguments dict V : clear implicits.

(** ** clock.py *)

Module Clock.

Section WithCallbacks.
(** [W] is the state the registered callbacks read and write (everything
    they can reach except the clock's own [events]); [R] is what they
    return. *)
Context {W R : Type}.

Definition callback := W -> W * (exn + R).

Record event_data := EventData {
  timer : Z;
  function : callback;
  delay : Z
}.

Record t := Make { events : dict event_data }.

Definition empty : t := {| events := [] |}.

(** [_calculate_next_execution_time]; [now] is the value of [self.now]. *)
Definition _calculate_next_execution_time (now delay : Z) : Z :=
  if 0 <? delay then now + delay else 0.

Definition add (event : Z) (cb : callback) (delay now : Z) (self : t) : t :=
  let next_execution_time := _calculate_next_execution_time now delay in
  {| events := dict_set event
                 {| timer := next_execution_time; function := cb; delay := delay |}
                 (events self) |}.

(** [self.events[event][field] = ...]: the subscript [self.events[event]]
    raises [KeyError] before anything is written. *)
Definition update_event (event : Z) (f : event_data -> event_data) (self : t)
  : t * (exn + unit) :=
  match dict_get event (events self) with
  | None => (self, inl KeyError)
  | Some e => ({| events := dict_set event (f e) (events self) |}, inr tt)
  end.

Definition with_delay (d : Z) (e : event_data) : event_data :=
  {| timer := timer e; function := function e; delay := d |}.

Definition with_timer (next : Z) (e : event_data) : event_data :=
  {| timer := next; function := function e; delay := delay e |}.

Definition set (event : Z) (delay now : Z) (self : t) : t * (exn + unit) :=
  let next_execution_time := _calculate_next_execution_time now delay in
  match update_event event (with_delay delay) self with
  | (self1, inl e) => (self1, inl e)
  | (self1, inr _) => update_event event (with_timer next_execution_time) self1
  end.

Definition remove (event : Z) (self : t) : t :=
  {| events := dict_pop event (events self) |}.

(** The loop of [make_step] over [self.events.items()].  A callback that
    raises ends the loop: the events already handled keep their new timer,
    the raising one and the ones after it are untouched, and the exception
    leaves with whatever the callbacks did to [W]. *)
Fixpoint run_events (current_time : Z) (evs : dict event_data) (w : W)
         (results : dict R) : dict event_data * W * (exn + dict R) :=
  match evs with
  | [] => ([], w, inr results)
  | (event_id, event_data) :: rest =>
      let next_execution_time := timer event_data in
      let callback := function event_data in
      let delay := delay event_data in
      if (0 <? next_execution_time) && (next_execution_time <? current_time)
      then
        match callback w with
        | (w1, inl e) => ((event_id, event_data) :: rest, w1, inl e)
        | (w1, inr r) =>
            let '(rest', w2, out) :=
              run_events current_time rest w1 (dict_set event_id r results) in
            ((event_id, with_timer (current_time + delay) event_data) :: rest',
             w2, out)
        end
      else
        let '(rest', w2, out) := run_events current_time rest w results in
        ((event_id, event_data) :: rest', w2, out)
  end.

(** [make_step]; [current_time] is the value of [self.now]. *)
Definition make_step (current_time : Z) (self : t) (w : W)
  : t * W * (exn + dict R) :=
  let '(evs, w', out) := run_events current_time (events self) w [] in
  ({| events := evs |}, w', out).

(** Event ids are dictionary keys: no id is registered twice. *)
Definition wf (self : t) : Prop := NoDup (keys (events self)).

(** An event is due at [current_time]. *)
Definition due (current_time : Z) (e : event_data) : bool :=
  (0 <? timer e) && (timer e <? current_time).

Definition due_events (current_time : Z) (evs : dict event_data)
  : dict event_data :=
  List.filter (fun p => due current_time (snd p)) evs.

Definition due_ids (current_time : Z) (self : t) : list Z :=
  keys (due_events current_time (events self)).

Definition reschedule (current_time : Z) (e : event_data) : event_data :=
  if due current_time e then with_timer (current_time + delay e) e else e.

(** Calling the callbacks of a list of events one after the other, each on
    the state the one before left, up to the first that raises: the state
    they leave and, when all return, what each returned. *)
Fixpoint call_in_order (evs : dict event_data) (w : W) : W * (exn + dict R) :=
  match evs with
  | [] => (w, inr [])
  | (event_id, e) :: rest =>
      match function e w with
      | (w1, inl ex) => (w1, inl ex)
      | (w1, inr r) =>
          match call_in_order rest w1 with
          | (w2, inl ex) => (w2, inl ex)
          | (w2, inr returned) => (w2, inr ((event_id, r) :: returned))
          end
      end
  end.

(** Every event that can fire has a positive delay. *)
Definition armed (self : t) : Prop :=
  Forall (fun p => 0 < timer (snd p) -> 0 < delay (snd p)) (events self).

(** What one step may do to one event: the id, the callback and the delay
    stay, and the timer either stays or, for a due event, becomes
    [current_time + delay]. *)
Definition stepped (current_time : Z) (p p' : Z * event_data) : Prop :=
  fst p' = fst p /\ function (snd p') = function (snd p)
  /\ delay (snd p') = delay (snd p)
  /\ (timer (snd p') = timer (snd p)
      \/ (due current_time (snd p) = true
          /\ timer (snd p') = current_time + delay (snd p))).
End WithCallbacks.

Arguments callback : clear implicits.
Arguments event_data : clear implicits.
Arguments t : clear implicits.

(** Counting invocations.  [instrument] registers the same callbacks, each of
    which now also appends its event id and what it returned or raised to a
    log carried next to [W]; [invocations] is the log one [make_step] leaves. *)
Section Tracing.
Context {W R : Type}.

Definition call_log := dict (exn + R).

Definition logged (event_id : Z) (f : callback W R)
  : callback (W * call_log) R :=
  fun wl =>
    let '(w', out) := f (fst wl) in
    ((w', snd wl ++ [(event_id, out)]), out).

Definition instrument_event (p : Z * event_data W R)
  : Z * event_data (W * call_log) R :=
  (fst p, {| timer := timer (snd p);
             function := logged (fst p) (function (snd p));
             delay := delay (snd p) |}).

Definition instrument (self : t W R) : t (W * call_log) R :=
  {| events := map instrument_event (events self) |}.

Definition invocations (current_time : Z) (self : t W R) (w : W) : call_log :=
  snd (snd (fst (make_step current_time (instrument self) (w, [])))).

(** A caller that keeps stepping, at the given clock readings, whatever each
    step returns or raises, and the invocations of all these steps. *)
Fixpoint run_steps (times : list Z) (self : t W R) (w : W) : t W R * W :=
  match times with
  | [] => (self, w)
  | current_time :: later =>
      run_steps later (fst (fst (make_step current_time self w)))
                (snd (fst (make_step current_time self w)))
  end.

Fixpoint invocations_over (times : list Z) (self : t W R) (w : W) : call_log :=
  match times with
  | [] => []
  | current_time :: later =>
      invocations current_time self w
      ++ invocations_over later (fst (fst (make_step current_time self w)))
                          (snd (fst (make_step current_time self w)))
  end.
End Tracing.

End Clock.

(** ** aurora.py *)

(** [datetime.time] values and their order. *)
Module datetime.
Record time := Time { hour : Z; minute : Z; second : Z; microsecond : Z }.

Definition seconds_key (x : time) : list Z :=
  [hour x; minute x; second x; microsecond x].

Fixpoint lex_leb (a b : list Z) : bool :=
  match a, b with
  | [], _ => true
  | _ :: _, [] => false
  | x :: a', y :: b' => (x <? y) || ((x =? y) && lex_leb a' b')
  end.

Definition leb (x y : time) : bool := lex_leb (seconds_key x) (seconds_key y).

(** The ranges [datetime.time] accepts for its fields. *)
Definition valid (x : time) : Prop :=
  0 <= hour x < 24 /\ 0 <= minute x < 60 /\ 0 <= second x < 60
  /\ 0 <= microsecond x < 1000000.
End datetime.

(** What [requests] hands back: the status and, for a success, the decoded
    JSON body. *)
Record response (A : Type) := Response {
  ok : bool;
  status_code : Z;
  content : string;
  json : A
}.
Arguments Response {A}.
Arguments ok {A}.
Arguments status_code {A}.
Arguments content {A}.
Arguments json {A}.

(** The aurora feed: [data.get('coordinates')] is a list of
    [(longitude, latitude, aurora)] triples, or is missing. *)
Record aurora_json := AuroraJson {
  coordinates_field : option (list (Z * Z * Q))
}.

(** One reading of the K-index feed; both keys may be missing, and a
    [kp_index] that is there is a number. *)
Record k_reading := KReading {
  time_tag : option string;
  kp_index : option Q
}.

(** Everything one call of [check] reads from outside the process. *)
Record network := Network {
  aurora_feed : response aurora_json;
  k_index_feed : response (list k_reading);
  push_sink : response unit;
  clock_now : Z
}.

Module Aurora.

Local Open Scope string_scope.

Definition SECOND : Z := 1.
Definition MINUTE : Z := 60.
Definition HOUR : Z := 3600.
Definition SEND_DELAY : Z := HOUR.
Definition SEND_DELAY_DAY : Z := 4 * HOUR.
Definition CHECK_DELAY : Z := MINUTE.
Definition START_DAY : datetime.time := datetime.Time 6 0 0 0.
Definition END_DAY : datetime.time := datetime.Time 19 0 0 0.
Definition CHECK_EVENT : Z := 1.
Definition RESET_EVENT : Z := 2.

Definition thresholds := list (Z * string).

Definition AURORA_LEVELS_pl : thresholds :=
  [ (90, "Lokalnie: 90. Masz ją nad głową!");
    (80, "Lokalnie: 80. Ogromna szansa!");
    (70, "Lokalnie: 70. Bardzo duża szansa.");
    (50, "Lokalnie: 50. Może coś się pojawi. Wypatruj.");
    (30, "Lokalnie: 30. Jeżeli będziesz mieć bardzo dużo szczęścia") ].

Definition AURORA_LEVELS_en : thresholds :=
  [ (90, "Locally: 90. You have it on your head!");
    (80, "Locally: 80. Very likely!");
    (70, "Locally: 70. Very likely.");
    (50, "Locally: 50. Something might happen. Take a break.");
    (30, "Locally: 30. If you have a lot of happiness") ].

Definition K_INDEX_LEVELS_pl : thresholds :=
  [ (9, "Globalnie: 9. Musisz ją widzieć!");
    (8, "Globalnie: 8. Duża szansa!");
    (7, "Globalnie: 7. Dzisiaj jest spora szansa.");
    (6, "Globalnie: 6. Dzisiaj jest szansa.");
    (5, "Globalnie: 5. Jakaś tam szansa dzisiaj jest.") ].

Definition K_INDEX_LEVELS_en : thresholds :=
  [ (9, "Globally: 9. You have to see it!");
    (8, "Globally: 8. Very likely!");
    (7, "Globally: 7. There is a lot of chance today.");
    (6, "Globally: 6. There is a chance today.");
    (5, "Globally: 5. There might be a chance today.") ].

Definition AURORA_LEVELS : gmap string thresholds :=
  <["pl" := AURORA_LEVELS_pl]> (<["en" := AURORA_LEVELS_en]> ∅).

Definition K_INDEX_LEVELS : gmap string thresholds :=
  <["pl" := K_INDEX_LEVELS_pl]> (<["en" := K_INDEX_LEVELS_en]> ∅).

(** The attributes of an [Aurora] object, except [clock], which the methods
    below never write ([send_push] only reads its [now]). *)
Record t := Make {
  api_key : string;
  user_key : string;
  latitude : Z;
  longitude : Z;
  language : string;
  is_day : bool;
  last_send_time : Z;
  last_k_level : Z;
  last_aurora_level : Z
}.

Definition __init__ (api_key user_key : string) (latitude longitude : Z)
           (language : string) : t :=
  {| api_key := api_key; user_key := user_key; latitude := latitude;
     longitude := longitude; language := language; is_day := false;
     last_send_time := 0; last_k_level := 0; last_aurora_level := 0 |}.

(** The two attribute names [_get_message_from_levels] is called with. *)
Inductive level_var := last_aurora_level_var | last_k_level_var.

Definition getattr (self : t) (name : level_var) : Z :=
  match name with
  | last_aurora_level_var => last_aurora_level self
  | last_k_level_var => last_k_level self
  end.

Definition setattr (self : t) (name : level_var) (value : Z) : t :=
  match name with
  | last_aurora_level_var =>
      {| api_key := api_key self; user_key := user_key self;
         latitude := latitude self; longitude := longitude self;
         language := language self; is_day := is_day self;
         last_send_time := last_send_time self;
         last_k_level := last_k_level self; last_aurora_level := value |}
  | last_k_level_var =>
      {| api_key := api_key self; user_key := user_key self;
         latitude := latitude self; longitude := longitude self;
         language := language self; is_day := is_day self;
         last_send_time := last_send_time self;
         last_k_level := value; last_aurora_level := last_aurora_level self |}
  end.

Definition set_is_day (self : t) (value : bool) : t :=
  {| api_key := api_key self; user_key := user_key self;
     latitude := latitude self; longitude := longitude self;
     language := language self; is_day := value;
     last_send_time := last_send_time self;
     last_k_level := last_k_level self;
     last_aurora_level := last_aurora_level self |}.

Definition set_last_send_time (self : t) (value : Z) : t :=
  {| api_key := api_key self; user_key := user_key self;
     latitude := latitude self; longitude := longitude self;
     language := language self; is_day := is_day self;
     last_send_time := value;
     last_k_level := last_k_level self;
     last_aurora_level := last_aurora_level self |}.

(** [current_value >= level > getattr(self, last_level_var)] *)
Definition crosses (current_value : Q) (last_level : Z) (level : Z) : bool :=
  Qle_bool (inject_Z level) current_value && (last_level <? level)%Z.

Fixpoint _get_message_from_levels (current_value : Q) (thresholds : thresholds)
         (last_level_var : level_var) (self : t) : t * option string :=
  match thresholds with
  | [] => (self, None)
  | (level, message) :: rest =>
      if crosses current_value (getattr self last_level_var) level
      then (setattr self last_level_var level, Some message)
      else _get_message_from_levels current_value rest last_level_var self
  end.

(** The condition of the scan as a proposition. *)
Definition qualifies (current_value : Q) (last_level : Z) (entry : Z * string)
  : Prop :=
  (inject_Z entry.1 <= current_value)%Q /\ (last_level < entry.1)%Z.

(** A threshold table lists its levels in strictly descending order. *)
Definition descending (thresholds : thresholds) : Prop :=
  StronglySorted (fun a b => (b.1 < a.1)%Z) thresholds.

(** *** Methods

    A method takes the object and gives back the object as the call leaves it,
    the message texts it POSTed to [PUSH_URL] on the way, and either the
    exception that left the call or the returned value. *)

Record run (A : Type) := Run {
  after : t;
  posted : list string;
  outcome : exn + A
}.
Arguments Run {A}.
Arguments after {A}.
Arguments posted {A}.
Arguments outcome {A}.

Definition method (A : Type) : Type := t -> run A.

#[global] Instance method_ret : MRet method :=
  fun A a self => Run self [] (inr a).

#[global] Instance method_bind : MBind method :=
  fun A B k m self =>
    match outcome (m self) with
    | inl e => Run (after (m self)) (posted (m self)) (inl e)
    | inr a =>
        let r := k a (after (m self)) in
        Run (after r) (posted (m self) ++ posted r) (outcome r)
    end.

(** A computation that does not touch the object: it returns or raises. *)
Definition lift {A : Type} (x : exn + A) : method A :=
  fun self => Run self [] x.

(** Read [self]. *)
Definition get_self : method t := fun self => Run self [] (inr self).

(** A helper that mutates the object and cannot raise. *)
Definition call {A : Type} (f : t -> t * A) : method A :=
  fun self => Run (fst (f self)) [] (inr (snd (f self))).

(** [d[key]] on a dictionary of the module. *)
Definition getitem {V : Type} (d : gmap string V) (key : string) : exn + V :=
  match d !! key with
  | Some v => inr v
  | None => inl KeyError
  end.

Definition _download_aurora_data (response : response aurora_json)
  : exn + aurora_json :=
  if ok response then inr (json response)
  else inl (ConnectionError AURORA_URL (status_code response) (content response)).

(** [str.replace] for one-character patterns. *)
Fixpoint replace (old new : ascii) (s : string) : string :=
  match s with
  | EmptyString => EmptyString
  | String c s' =>
      String (if Ascii.eqb c old then new else c) (replace old new s')
  end.

Definition _download_k_index_data (response : response (list k_reading))
  : exn + (string * Q) :=
  if ok response then
    match last (json response) with
    | None => inl IndexError
    | Some data =>
        let k_time := replace "T" " " (default "" (time_tag data)) in
        let k_index := default 0%Q (kp_index data) in
        inr (k_time, k_index)
    end
  else inl (ConnectionError K_INDEX_URL (status_code response) (content response)).

(** The dictionary comprehension of [_process_aurora_data]: a later triple
    with the same key replaces an earlier one. *)
Definition coordinate_map (triples : list (Z * Z * Q)) : gmap (Z * Z) Q :=
  foldl (fun m '(lon, lat, aurora) => <[(lon, lat) := aurora]> m) ∅ triples.

Definition _process_aurora_data (data : aurora_json) : exn + gmap (Z * Z) Q :=
  let coordinates := coordinate_map (default [] (coordinates_field data)) in
  if decide (coordinates = ∅) then inl ValueError else inr coordinates.

(** [max(coordinates.values())], only printed. *)
Definition max_values (coordinates : gmap (Z * Z) Q) : option Q :=
  map_fold (fun _ v acc => Some (from_option (Qmax v) v acc)) None coordinates.

Definition _evaluate_aurora_level (net : network) : method (option string) :=
  data ← lift (_download_aurora_data (aurora_feed net));
  coordinates ← lift (_process_aurora_data data);
  self ← get_self;
  let local_level := default 0%Q (coordinates !! (longitude self, latitude self)) in
  let max_aurora := max_values coordinates in
  thresholds ← lift (getitem AURORA_LEVELS (language self));
  call (_get_message_from_levels local_level thresholds last_aurora_level_var).

Definition _evaluate_k_index_level (net : network) : method (option string) :=
  '(k_time, k_index) ← lift (_download_k_index_data (k_index_feed net));
  self ← get_self;
  thresholds ← lift (getitem K_INDEX_LEVELS (language self));
  call (_get_message_from_levels k_index thresholds last_k_level_var).

Definition send_push (net : network) (message : string) : method (response unit) :=
  fun self =>
    let response := push_sink net in
    if ok response
    then Run (set_last_send_time self (clock_now net)) [message] (inr response)
    else Run self [message]
           (inl (ConnectionError PUSH_URL (status_code response) (content response))).

(** [filter(None, results)]: drops [None] and the empty string. *)
Fixpoint filter_none (results : list (option string)) : list string :=
  match results with
  | [] => []
  | Some (String c s) :: rest => String c s :: filter_none rest
  | _ :: rest => filter_none rest
  end.

Definition newline : string := String "010"%char EmptyString.

Definition truthy (s : string) : bool :=
  match s with EmptyString => false | String _ _ => true end.

Definition check (net : network) : method string :=
  aurora_result ← _evaluate_aurora_level net;
  k_index_result ← _evaluate_k_index_level net;
  let message := String.concat newline (filter_none [aurora_result; k_index_result]) in
  if truthy message
  then _ ← send_push net message; mret message
  else mret message.

Definition reset : method unit :=
  fun self =>
    Run (setattr (setattr self last_aurora_level_var 0) last_k_level_var 0) []
        (inr tt).

(** [is_daytime]; [current_time] is [datetime.datetime.now().time()]. *)
Definition is_daytime (current_time : datetime.time) : bool :=
  datetime.leb START_DAY current_time && datetime.leb current_time END_DAY.

(** [update_daytime_delay] reads the property [is_daytime] twice, at
    [time_1] for the test and at [time_2] for the assignment, and then
    [self.clock.now].  The clock may hold callbacks of any kind. *)
Definition update_daytime_delay {W R : Type} (time_1 time_2 : datetime.time)
           (now : Z) (self : t) (clock : Clock.t W R)
  : t * Clock.t W R * (exn + unit) :=
  if negb (Bool.eqb (is_daytime time_1) (is_day self)) then
    let self1 := set_is_day self (is_daytime time_2) in
    let delay := if is_day self1 then SEND_DELAY_DAY else SEND_DELAY in
    let '(clock1, out) := Clock.set RESET_EVENT delay now clock in
    (self1, clock1, out)
  else (self, clock, inr tt).

(** Checks one after the other, whatever each one returns or raises. *)
Definition run_checks (nets : list network) (self : t) : t :=
  foldl (fun s net => after (check net s)) self nets.

(** What the two evaluations read before they touch the object: the value
    to compare and the table of the configured language, or the exception
    that ends the evaluation. *)
Definition aurora_reading (net : network) (self : t) : exn + (Q * thresholds) :=
  match _download_aurora_data (aurora_feed net) with
  | inl e => inl e
  | inr data =>
      match _process_aurora_data data with
      | inl e => inl e
      | inr coordinates =>
          match getitem AURORA_LEVELS (language self) with
          | inl e => inl e
          | inr thresholds =>
              inr (default 0%Q (coordinates !! (longitude self, latitude self)),
                   thresholds)
          end
      end
  end.

Definition k_index_reading (net : network) (self : t) : exn + (Q * thresholds) :=
  match _download_k_index_data (k_index_feed net) with
  | inl e => inl e
  | inr (k_time, k_index) =>
      match getitem K_INDEX_LEVELS (language self) with
      | inl e => inl e
      | inr thresholds => inr (k_index, thresholds)
      end
  end.

(** Neither stored level is lower in [self'] than in [self]. *)
Definition not_lowered (self self' : t) : Prop :=
  (last_aurora_level self <= last_aurora_level self')%Z
  /\ (last_k_level self <= last_k_level self')%Z.

(** What a caller can do with the monitor, and a run of such actions. *)
Inductive action := DoCheck (net : network) | DoReset.

Definition perform (self : t) (a : action) : t :=
  match a with
  | DoCheck net => after (check net self)
  | DoReset => after (reset self)
  end.

Definition run_actions (actions : list action) (self : t) : t :=
  foldl perform self actions.

(** The levels a stored level can take with the table of a language. *)
Definition known_levels (tables : gmap string thresholds) (language : string)
  : list Z :=
  0%Z :: (default [] (tables !! language)).*1.

Definition levels_known (self : t) : Prop :=
  last_aurora_level self ∈ known_levels AURORA_LEVELS (language self)
  /\ last_k_level self ∈ known_levels K_INDEX_LEVELS (language self).

(** The messages of successive scans of one metric, without a reset. *)
Fixpoint scan_all (values : list Q) (thresholds : thresholds)
         (last_level_var : level_var) (self : t) : list string :=
  match values with
  | [] => []
  | v :: later =>
      let scan := _get_message_from_levels v thresholds last_level_var self in
      match snd scan with
      | Some message => message :: scan_all later thresholds last_level_var (fst scan)
      | None => scan_all later thresholds last_level_var (fst scan)
      end
  end.

(** *** The bound methods registered by [start_loop] *)

(** What [self.check] and [self.reset] act on when the clock calls them: the
    object, the number of [check] calls made so far (the n-th call is answered
    by the n-th element of the network's behaviour) and the message texts
    POSTed so far. *)
Record world := World {
  self_ : t;
  checks_made : nat;
  outbox : list string
}.

Inductive value := PyNone | PyStr (s : string).

Section StartLoop.
Variable net : nat -> network.

Definition check_callback : Clock.callback world value :=
  fun w =>
    let r := check (net (checks_made w)) (self_ w) in
    (World (after r) (S (checks_made w)) (outbox w ++ posted r),
     match outcome r with inl e => inl e | inr m => inr (PyStr m) end).

Definition reset_callback : Clock.callback world value :=
  fun w =>
    let r := reset (self_ w) in
    (World (after r) (checks_made w) (outbox w ++ posted r),
     match outcome r with inl e => inl e | inr _ => inr PyNone end).

(** The two [self.clock.add] calls that open [start_loop]. *)
Definition register_events (now_1 now_2 : Z) : Clock.t world value :=
  Clock.add RESET_EVENT reset_callback SEND_DELAY now_2
    (Clock.add CHECK_EVENT check_callback CHECK_DELAY now_1 Clock.empty).

(** The running monitor: the object and its clock. *)
Record process := Process {
  monitor : world;
  clock : Clock.t world value
}.

(** The wall-clock readings of one [update_daytime_delay]: the two reads of
    [is_daytime] and [self.clock.now]. *)
Record policy_reading := PolicyReading {
  day_time_1 : datetime.time;
  day_time_2 : datetime.time;
  set_time : Z
}.

Definition apply_daytime_policy (r : policy_reading) (p : process)
  : process * (exn + unit) :=
  let '(self1, clock1, out) :=
    update_daytime_delay (day_time_1 r) (day_time_2 r) (set_time r)
                         (self_ (monitor p)) (clock p) in
  (Process (World self1 (checks_made (monitor p)) (outbox (monitor p))) clock1,
   out).

(** [start_loop] up to the [while]: the two registrations, the day/night
    policy and the first [check], whose result is dropped. *)
Definition start_loop_setup (now_1 now_2 : Z) (r : policy_reading) (self : t)
  : process * (exn + unit) :=
  let p0 := Process (World self 0 []) (register_events now_1 now_2) in
  match apply_daytime_policy r p0 with
  | (p1, inl e) => (p1, inl e)
  | (p1, inr _) =>
      let '(w2, out) := check_callback (monitor p1) in
      (Process w2 (clock p1),
       match out with inl e => inl e | inr _ => inr tt end)
  end.

(** One pass of the body of the [while]: [make_step] at [step_time], then
    the day/night policy; [time.sleep(3)] changes nothing here. *)
Definition loop_iteration (step_time : Z) (r : policy_reading) (p : process)
  : process * (exn + unit) :=
  let '(clock1, w1, out) := Clock.make_step step_time (clock p) (monitor p) in
  match out with
  | inl e => (Process w1 clock1, inl e)
  | inr _ => apply_daytime_policy r (Process w1 clock1)
  end.

(** The first passes of the loop, as many as there are readings, or fewer
    when an exception leaves the loop. *)
Fixpoint run_loop (readings : list (Z * policy_reading)) (p : process)
  : process * (exn + unit) :=
  match readings with
  | [] => (p, inr tt)
  | (step_time, r) :: later =>
      match loop_iteration step_time r p with
      | (p1, inl e) => (p1, inl e)
      | (p1, inr _) => run_loop later p1
      end
  end.

(** The reset interval agrees with the cached day flag, and the two events
    of [start_loop] are registered with their callbacks. *)
Definition loop_invariant (p : process) : Prop :=
  exists check_timer reset_timer,
    Clock.events (clock p)
    = [(CHECK_EVENT, Clock.EventData check_timer check_callback CHECK_DELAY);
       (RESET_EVENT,
        Clock.EventData reset_timer reset_callback
          (if is_day (self_ (monitor p)) then SEND_DELAY_DAY else SEND_DELAY))].
End StartLoop.

End Aurora.

(** ** example.py *)

Module example.
Definition LATITUDE : Z := 60.
Definition LONGITUDE : Z := 18.
Definition LANGUAGE : string := "pl".

Definition initialize_aurora_monitor (api_key user_key : string)
           (latitude longitude : Z) (language : string) : Aurora.t :=
  Aurora.__init__ api_key user_key latitude longitude language.

(** The monitor of the [__main__] block, for given environment variables. *)
Definition aurora_monitor (API_KEY USER_KEY : string) : Aurora.t :=
  initialize_aurora_monitor API_KEY USER_KEY LATITUDE LONGITUDE LANGUAGE.
End example.

(** A network on which both feeds answer and the push service accepts: the
    monitored grid point has intensity [local], another one has 99, and the
    last K-index reading is [kp]. *)
Definition answering (local kp : Q) (now : Z) : network :=
  {| aurora_feed :=
       Response true 200 ""
         (AuroraJson (Some [(0, 0, 99%Q); (18, 60, local)]));
     k_index_feed :=
       Response true 200 ""
         [KReading (Some "2024-05-10T21:00:00") (Some 0%Q);
          KReading (Some "2024-05-10T21:01:00") (Some kp)];
     push_sink := Response true 200 "" tt;
     clock_now := now |}.

(** The clock of that monitor once [start_loop] has registered its two
    events, both at time 1000, and the state its callbacks start from. *)
Definition monitor_clock : Clock.t Aurora.world Aurora.value :=
  Aurora.register_events (fun _ => answering 0 0 1000) 1000 1000.

Definition monitor_world : Aurora.world :=
  Aurora.World (example.aurora_monitor "app" "user") 0 [].

Definition english_monitor : Aurora.t :=
  example.initialize_aurora_monitor "app" "user" 60 18 "en".

Definition noon : datetime.time := datetime.Time 12 0 0 0.

(** The aurora feed answers with intensity 55 at the monitored grid point,
    the K-index feed answers 503. *)
Definition k_index_down : network :=
  {| aurora_feed := aurora_feed (answering 55 0 1000);
     k_index_feed := Response false 503 "Service Unavailable" [];
     push_sink := Response true 200 "" tt;
     clock_now := 1000 |}.

(** The aurora feed has no entry for the monitored grid point (18, 60). *)
Definition off_grid : network :=
  {| aurora_feed :=
       Response true 200 "" (AuroraJson (Some [(0, 0, 99%Q); (17, 60, 80%Q)]));
     k_index_feed := k_index_feed (answering 0 0 1000);
     push_sink := Response true 200 "" tt;
     clock_now := 1000 |}.

(** The aurora feed answers 200 with an empty coordinate list. *)
Definition empty_feed : network :=
  {| aurora_feed := Response true 200 "" (AuroraJson (Some []));
     k_index_feed := k_index_feed (answering 0 9 1000);
     push_sink := Response true 200 "" tt;
     clock_now := 1000 |}.

(** The same clock when the K-index feed is down at every check. *)
Definition failing_clock : Clock.t Aurora.world Aurora.value :=
  Aurora.register_events (fun _ => k_index_down) 1000 1000.

(** A monitor configured with a language that has no message tables. *)
Definition german_monitor : Aurora.t :=
  example.initialize_aurora_monitor "app" "user" 60 18 "de".

(** Both metrics are above a threshold and the push service answers 500. *)
Definition push_down : network :=
  {| aurora_feed := aurora_feed (answering 55 7 1000);
     k_index_feed := k_index_feed (answering 55 7 1000);
     push_sink := Response false 500 "Internal Server Error" tt;
     clock_now := 1000 |}.

(** The monitor's clock with a third event registered with delay 0. *)
Definition clock_with_inactive : Clock.t Aurora.world Aurora.value :=
  Clock.add 3 Aurora.reset_callback 0 1000 monitor_clock.

(** A K-index answer with three readings. *)
Definition k_index_answer : response (list k_reading) :=
  Response true 200 ""
    [KReading (Some "2024-05-10T20:58:00") (Some 9%Q);
     KReading None None;
     KReading (Some "2024-05-10T21:00:00") (Some (14 # 3)%Q)].

(** The last K-index reading lacks its [kp_index]. *)
Definition kp_missing : network :=
  {| aurora_feed := aurora_feed (answering 0 0 1000);
     k_index_feed :=
       Response true 200 ""
         [KReading (Some "2024-05-10T20:59:00") (Some 9%Q);
          KReading (Some "2024-05-10T21:00:00") None];
     push_sink := Response true 200 "" tt;
     clock_now := 1000 |}.

(** A clock on which the reset event is registered before a check event
    whose K-index feed is down. *)
Definition reset_then_failing_check : Clock.t Aurora.world Aurora.value :=
  Clock.add 1 (Aurora.check_callback (fun _ => k_index_down)) 60 1000
    (Clock.add 2 Aurora.reset_callback 3600 1000 Clock.empty).

(** * Properties *)

(** ** Dictionaries *)

Section DictFacts.
Context {V : Type}.
Implicit Types (d : dict V) (k : Z) (v : V).

Lemma dict_get_None d k : dict_get k d = None <-> k ∉ keys d.
Proof.
  induction d as [|[k' v'] d IH]; simpl.
  - split; [intros _; apply not_elem_of_nil | reflexivity].
  - rewrite not_elem_of_cons. destruct (Z.eqb_spec k' k) as [->|Hne].
    + split; [discriminate | intros [[] _]; reflexivity].
    + rewrite IH. split; [intros H; split; [congruence | exact H] | intros [_ H]; exact H].
Qed.

Lemma dict_get_Some_elem d k v : dict_get k d = Some v -> k ∈ keys d.
Proof.
  intros H. destruct (decide (k ∈ keys d)) as [|Hn]; [assumption|].
  apply dict_get_None in Hn. congruence.
Qed.

Lemma dict_pop_absent d k : k ∉ keys d -> dict_pop k d = d.
Proof.
  induction d as [|[k' v'] d IH]; simpl; [reflexivity|].
  rewrite not_elem_of_cons. intros [Hne Hd].
  destruct (Z.eqb_spec k' k); [congruence|]. now rewrite IH.
Qed.

Lemma dict_set_fresh d k v : k ∉ keys d -> dict_set k v d = d ++ [(k, v)].
Proof.
  induction d as [|[k' v'] d IH]; simpl; [reflexivity|].
  rewrite not_elem_of_cons. intros [Hne Hd].
  destruct (Z.eqb_spec k' k); [congruence|]. now rewrite IH.
Qed.

Lemma dict_get_set_eq d k v : dict_get k (dict_set k v d) = Some v.
Proof.
  induction d as [|[k' v'] d IH]; simpl.
  - now rewrite Z.eqb_refl.
  - destruct (Z.eqb_spec k' k) as [->|Hne]; simpl.
    + now rewrite Z.eqb_refl.
    + destruct (Z.eqb_spec k' k); [congruence | exact IH].
Qed.

Lemma dict_get_set_ne d k k' v :
  k <> k' -> dict_get k' (dict_set k v d) = dict_get k' d.
Proof.
  intros Hne. induction d as [|[k0 v0] d IH]; simpl.
  - destruct (Z.eqb_spec k k'); [congruence | reflexivity].
  - destruct (Z.eqb_spec k0 k) as [->|Hk]; simpl.
    + destruct (Z.eqb_spec k k'); [congruence | reflexivity].
    + destruct (Z.eqb_spec k0 k'); [reflexivity | exact IH].
Qed.

Lemma dict_set_twice d k v v' : dict_set k v' (dict_set k v d) = dict_set k v' d.
Proof.
  induction d as [|[k0 v0] d IH]; simpl.
  - now rewrite Z.eqb_refl.
  - destruct (Z.eqb_spec k0 k) as [->|Hne]; simpl.
    + now rewrite Z.eqb_refl.
    + destruct (Z.eqb_spec k0 k); [congruence | now rewrite IH].
Qed.

Lemma keys_dict_set_present d k v : k ∈ keys d -> keys (dict_set k v d) = keys d.
Proof.
  induction d as [|[k' v'] d IH]; simpl.
  - intros H. now apply elem_of_nil in H.
  - intros H. destruct (Z.eqb_spec k' k) as [->|Hne]; simpl; [reflexivity|].
    apply elem_of_cons in H as [->|H]; [congruence|]. now rewrite IH.
Qed.

Lemma keys_dict_set_NoDup d k v : NoDup (keys d) -> NoDup (keys (dict_set k v d)).
Proof.
  intros Hd. destruct (decide (k ∈ keys d)) as [Hin|Hout].
  - now rewrite keys_dict_set_present.
  - rewrite dict_set_fresh by assumption. unfold keys. rewrite map_app. simpl.
    apply NoDup_app. split; [exact Hd|]. split.
    + intros x Hx Hx'. apply list_elem_of_singleton in Hx'. subst. contradiction.
    + apply NoDup_singleton.
Qed.
End DictFacts.

(** ** The scheduler *)

Section ClockFacts.
Context {W R : Type}.
Implicit Types (self : Clock.t W R) (w : W) (e : Clock.event_data W R).

Lemma Clock_eta self : Clock.Make (Clock.events self) = self.
Proof. now destruct self. Qed.

Lemma Clock_wf_empty : Clock.wf (@Clock.empty W R).
Proof. apply NoDup_nil_2. Qed.

Lemma Clock_wf_add self event cb delay now :
  Clock.wf self -> Clock.wf (Clock.add event cb delay now self).
Proof. apply keys_dict_set_NoDup. Qed.

Lemma calculate_next_positive now delay :
  0 < delay -> Clock._calculate_next_execution_time now delay = now + delay.
Proof.
  intros H. unfold Clock._calculate_next_execution_time.
  destruct (Z.ltb_spec 0 delay); [reflexivity | lia].
Qed.

Lemma not_due_before_timer current_time e :
  current_time <= Clock.timer e -> Clock.due current_time e = false.
Proof.
  intros H. unfold Clock.due.
  destruct (Z.ltb_spec (Clock.timer e) current_time); [lia|].
  apply andb_false_r.
Qed.

Lemma reschedule_not_due current_time e :
  Clock.due current_time e = false -> Clock.reschedule current_time e = e.
Proof. intros H. unfold Clock.reschedule. now rewrite H. Qed.

(** The loop never adds, drops or reorders events. *)
Lemma run_events_keys current_time evs w (results : dict R) :
  keys (Clock.run_events current_time evs w results).1.1 = keys evs.
Proof.
  revert w results. induction evs as [|[id e] evs IH]; intros w results; simpl;
    [reflexivity|].
  fold (Clock.due current_time e).
  destruct (Clock.due current_time e).
  - destruct (Clock.function e w) as [w1 [ex|r]]; simpl; [reflexivity|].
    specialize (IH w1 (dict_set id r results)).
    destruct (Clock.run_events _ evs w1 _) as [[evs' w2] out]. simpl in *.
    now rewrite IH.
  - specialize (IH w results).
    destruct (Clock.run_events _ evs w _) as [[evs' w2] out]. simpl in *.
    now rewrite IH.
Qed.

(** An event that is not due comes out of the loop as it went in, whether
    the loop ends normally or by an exception. *)
Lemma run_events_not_due_untouched current_time evs w (results : dict R) k e :
  dict_get k evs = Some e -> Clock.due current_time e = false ->
  dict_get k (Clock.run_events current_time evs w results).1.1 = Some e.
Proof.
  revert w results. induction evs as [|[id e0] evs IH]; intros w results;
    simpl; [discriminate|].
  fold (Clock.due current_time e0). intros Hget Hdue.
  destruct (Z.eqb_spec id k) as [->|Hne].
  - injection Hget as ->. rewrite Hdue.
    destruct (Clock.run_events _ evs w _) as [[evs' w2] out]. simpl.
    now rewrite Z.eqb_refl.
  - destruct (Clock.due current_time e0).
    + destruct (Clock.function e0 w) as [w1 [ex|r]]; simpl.
      * destruct (Z.eqb_spec id k); [congruence | assumption].
      * specialize (IH w1 (dict_set id r results) Hget Hdue).
        destruct (Clock.run_events _ evs w1 _) as [[evs' w2] out]. simpl in *.
        destruct (Z.eqb_spec id k); [congruence | assumption].
    + specialize (IH w results Hget Hdue).
      destruct (Clock.run_events _ evs w _) as [[evs' w2] out]. simpl in *.
      destruct (Z.eqb_spec id k); [congruence | assumption].
Qed.

Local Abbreviation instr := (map (@Clock.instrument_event W R)).

(** What is already in the log does not influence the step. *)
Lemma run_events_log_prefix current_time evs w (log : @Clock.call_log R) results :
  Clock.run_events current_time (instr evs) (w, log) results =
  let Y := Clock.run_events current_time (instr evs) (w, []) results in
  (Y.1.1, (Y.1.2.1, log ++ Y.1.2.2), Y.2).
Proof.
  revert w log results.
  induction evs as [|[id e] evs IH]; intros w log results; simpl.
  - now rewrite app_nil_r.
  - destruct ((0 <? Clock.timer e) && (Clock.timer e <? current_time)).
    + unfold Clock.logged; simpl.
      destruct (Clock.function e w) as [w1 [ex|r]]; simpl; [reflexivity|].
      rewrite (IH w1 (log ++ [(id, inr r)])), (IH w1 [(id, inr r)]).
      destruct (Clock.run_events _ (instr evs) (w1, []) _) as [[evs' [w2 l2]] out].
      simpl. now rewrite <- app_assoc.
    + rewrite (IH w log).
      destruct (Clock.run_events _ (instr evs) (w, []) _) as [[evs' [w2 l2]] out].
      reflexivity.
Qed.

(** Logging does not change what the step does to the events, to [W] and
    to the result. *)
Lemma run_events_instrument current_time evs w (results : dict R) :
  let X := Clock.run_events current_time evs w results in
  let Y := Clock.run_events current_time (instr evs) (w, []) results in
  Y.1.1 = instr X.1.1 /\ Y.1.2.1 = X.1.2 /\ Y.2 = X.2.
Proof.
  revert w results.
  induction evs as [|[id e] evs IH]; intros w results; simpl; [easy|].
  destruct ((0 <? Clock.timer e) && (Clock.timer e <? current_time)).
  - unfold Clock.logged; simpl.
    destruct (Clock.function e w) as [w1 [ex|r]]; simpl; [easy|].
    rewrite run_events_log_prefix.
    specialize (IH w1 (dict_set id r results)). simpl in IH.
    destruct (Clock.run_events _ (instr evs) (w1, []) _) as [[evs' [w2 l2]] out].
    destruct (Clock.run_events _ evs w1 _) as [[evs0 w0] out0].
    simpl in *. destruct IH as (-> & -> & ->). easy.
  - specialize (IH w results). simpl in IH.
    destruct (Clock.run_events _ (instr evs) (w, []) _) as [[evs' [w2 l2]] out].
    destruct (Clock.run_events _ evs w _) as [[evs0 w0] out0].
    simpl in *. destruct IH as (-> & -> & ->). easy.
Qed.

(** The invocations are those of the due events, in registration order, up
    to the first callback that raises. *)
Lemma run_events_log_due current_time evs w (results : dict R) :
  exists rest,
    keys (Clock.due_events current_time evs) =
    keys (Clock.run_events current_time (instr evs) (w, []) results).1.2.2 ++ rest.
Proof.
  revert w results.
  induction evs as [|[id e] evs IH]; intros w results; simpl; [now exists []|].
  fold (Clock.due current_time e).
  destruct (Clock.due current_time e).
  - unfold Clock.logged; simpl.
    destruct (Clock.function e w) as [w1 [ex|r]]; simpl.
    + now exists (keys (Clock.due_events current_time evs)).
    + rewrite run_events_log_prefix.
      destruct (IH w1 (dict_set id r results)) as [rest Hrest].
      destruct (Clock.run_events _ (instr evs) (w1, []) _) as [[evs' [w2 l2]] out].
      simpl in *. exists rest. now rewrite Hrest.
  - destruct (IH w results) as [rest Hrest].
    destruct (Clock.run_events _ (instr evs) (w, []) _) as [[evs' [w2 l2]] out].
    simpl in *. now exists rest.
Qed.

(** A step that returns has called every due callback, its result holds
    what they returned, and the due events are rescheduled. *)
Lemma run_events_returns current_time evs w (results results' : dict R) :
  NoDup (keys evs) ->
  (forall k, k ∈ keys evs -> k ∉ keys results) ->
  (Clock.run_events current_time evs w results).2 = inr results' ->
  exists fired,
    results' = results ++ fired
    /\ (Clock.run_events current_time (instr evs) (w, []) results).1.2.2
       = map (fun p => (p.1, inr p.2)) fired
    /\ keys fired = keys (Clock.due_events current_time evs)
    /\ (Clock.run_events current_time evs w results).1.1
       = map (fun p => (p.1, Clock.reschedule current_time p.2)) evs.
Proof.
  revert w results.
  induction evs as [|[id e] evs IH]; intros w results Hnd Hfresh; simpl.
  - intros [= <-]. exists []. now rewrite app_nil_r.
  - simpl in Hnd. apply NoDup_cons in Hnd as [Hid Hnd].
    unfold Clock.reschedule. fold (Clock.due current_time e).
    destruct (Clock.due current_time e).
    + unfold Clock.logged; simpl.
      destruct (Clock.function e w) as [w1 [ex|r]]; simpl; [discriminate|].
      rewrite run_events_log_prefix.
      assert (Hset : dict_set id r results = results ++ [(id, r)]).
      { apply dict_set_fresh, Hfresh. simpl. apply elem_of_cons. now left. }
      specialize (IH w1 (dict_set id r results) Hnd).
      destruct (Clock.run_events _ (instr evs) (w1, []) _) as [[evs' [w2 l2]] out].
      destruct (Clock.run_events _ evs w1 _) as [[evs0 w0] out0].
      simpl in *. intros ->.
      destruct IH as (fired & -> & -> & Hk & ->); [|reflexivity|].
      * intros k Hk. rewrite Hset. unfold keys. rewrite map_app.
        rewrite not_elem_of_app. split.
        -- apply Hfresh. apply elem_of_cons. now right.
        -- simpl. intros Hin. apply list_elem_of_singleton in Hin. congruence.
      * exists ((id, r) :: fired). rewrite Hset, <- app_assoc. simpl.
        now rewrite Hk.
    + specialize (IH w results Hnd).
      destruct (Clock.run_events _ (instr evs) (w, []) _) as [[evs' [w2 l2]] out].
      destruct (Clock.run_events _ evs w _) as [[evs0 w0] out0].
      simpl in *. intros ->.
      destruct IH as (fired & -> & -> & Hk & ->); [|reflexivity|].
      * intros k Hk. apply Hfresh. apply elem_of_cons. now right.
      * now exists fired.
Qed.

Lemma due_events_keys_NoDup current_time (evs : dict (Clock.event_data W R)) :
  NoDup (keys evs) -> NoDup (keys (Clock.due_events current_time evs)).
Proof.
  induction evs as [|[id e] evs IH]; simpl; [intros; apply NoDup_nil_2|].
  intros [Hid Hnd]%NoDup_cons. specialize (IH Hnd).
  destruct (Clock.due current_time e); simpl; [|assumption].
  apply NoDup_cons. split; [|assumption].
  intros Hin. apply Hid. clear -Hin.
  induction evs as [|[id' e'] evs IH]; simpl in *; [assumption|].
  destruct (Clock.due current_time e'); simpl in *.
  - apply elem_of_cons in Hin as [->|Hin]; apply elem_of_cons; auto.
  - apply elem_of_cons; auto.
Qed.

Lemma not_due_not_in_due_events current_time (evs : dict (Clock.event_data W R)) k e :
  NoDup (keys evs) -> dict_get k evs = Some e ->
  Clock.due current_time e = false ->
  k ∉ keys (Clock.due_events current_time evs).
Proof.
  induction evs as [|[id e0] evs IH]; simpl; [discriminate|].
  intros [Hid Hnd]%NoDup_cons Hget Hdue.
  destruct (Z.eqb_spec id k) as [->|Hne].
  - injection Hget as ->. rewrite Hdue. intros Hin. apply Hid. clear -Hin.
    induction evs as [|[id' e'] evs IH]; simpl in *; [assumption|].
    destruct (Clock.due current_time e'); simpl in *.
    + apply elem_of_cons in Hin as [->|Hin]; apply elem_of_cons; auto.
    + apply elem_of_cons; auto.
  - specialize (IH Hnd Hget Hdue).
    destruct (Clock.due current_time e0); simpl; [|assumption].
    apply not_elem_of_cons. split; [congruence | assumption].
Qed.

Lemma invocations_due current_time self w :
  exists rest,
    Clock.due_ids current_time self =
    keys (Clock.invocations current_time self w) ++ rest.
Proof.
  unfold Clock.invocations, Clock.make_step, Clock.instrument, Clock.due_ids.
  simpl.
  destruct (run_events_log_due current_time (Clock.events self) w []) as [rest H].
  exists rest. rewrite H.
  now destruct (Clock.run_events _ (instr (Clock.events self)) (w, []) _)
    as [[evs' [w2 l2]] out].
Qed.

Lemma make_step_returns current_time self w self' w' results :
  Clock.wf self ->
  Clock.make_step current_time self w = (self', w', inr results) ->
  keys results = Clock.due_ids current_time self
  /\ Clock.invocations current_time self w = map (fun p => (p.1, inr p.2)) results
  /\ Clock.events self' =
     map (fun p => (p.1, Clock.reschedule current_time p.2)) (Clock.events self).
Proof.
  intros Hwf Hstep.
  pose proof (run_events_returns current_time (Clock.events self) w [] results Hwf)
    as Hret.
  unfold Clock.invocations, Clock.make_step, Clock.instrument, Clock.due_ids in *.
  simpl in *.
  destruct (Clock.run_events _ (instr (Clock.events self)) (w, []) _)
    as [[evs' [w2 l2]] out].
  destruct (Clock.run_events _ (Clock.events self) w _) as [[evs0 w0] out0].
  simpl in *. injection Hstep as <- <- ->.
  destruct Hret as (fired & -> & -> & Hk & ->); [|reflexivity|].
  - intros k _. apply not_elem_of_nil.
  - simpl. easy.
Qed.

Lemma added_event_not_due event cb delay current_time self :
  0 < delay ->
  dict_get event (Clock.events (Clock.add event cb delay current_time self))
  = Some (Clock.EventData (current_time + delay) cb delay)
  /\ Clock.due current_time (Clock.EventData (current_time + delay) cb delay) = false.
Proof.
  intros Hd. split.
  - unfold Clock.add. simpl. rewrite dict_get_set_eq.
    now rewrite calculate_next_positive.
  - apply not_due_before_timer. simpl. lia.
Qed.

Lemma dict_get_due_events current_time (evs : dict (Clock.event_data W R)) k e :
  dict_get k evs = Some e -> Clock.due current_time e = true ->
  k ∈ keys (Clock.due_events current_time evs).
Proof.
  induction evs as [|[id e0] evs IH]; simpl; [discriminate|].
  intros Hget Hdue. destruct (Z.eqb_spec id k) as [->|Hne].
  - injection Hget as ->. rewrite Hdue. simpl. apply elem_of_cons. now left.
  - specialize (IH Hget Hdue).
    destruct (Clock.due current_time e0); simpl; [|assumption].
    apply elem_of_cons. now right.
Qed.

Lemma dict_get_rescheduled current_time (evs : dict (Clock.event_data W R)) k :
  dict_get k (map (fun p => (p.1, Clock.reschedule current_time p.2)) evs)
  = Clock.reschedule current_time <$> dict_get k evs.
Proof.
  induction evs as [|[id e0] evs IH]; simpl; [reflexivity|].
  destruct (Z.eqb_spec id k); [reflexivity | exact IH].
Qed.

(** A rescheduled event, field by field. *)
Lemma reschedule_explicit current_time e :
  Clock.reschedule current_time e
  = if (0 <? Clock.timer e) && (Clock.timer e <? current_time)
    then Clock.EventData (current_time + Clock.delay e) (Clock.function e)
                         (Clock.delay e)
    else e.
Proof.
  unfold Clock.reschedule, Clock.due, Clock.with_timer.
  now destruct ((0 <? Clock.timer e) && (Clock.timer e <? current_time)).
Qed.

(** C3. One [make_step] invokes only callbacks of events whose timer is
    strictly positive and strictly before the current time, none of them
    twice; when it returns, it has invoked exactly those, its result maps
    each fired event id to what its callback returned, and each fired event
    has its timer set to current time + delay, with its callback and delay
    kept, while the others are unchanged.
    Hence an event added with a positive delay is not fired by a step taken
    at the time of the registration. *)
Theorem Clock_make_step_fires_due_once self w current_time :
  Clock.wf self ->
  (NoDup (keys (Clock.invocations current_time self w))
   /\ forall id, id ∈ keys (Clock.invocations current_time self w) ->
                 id ∈ Clock.due_ids current_time self)
  /\ (forall self' w' results,
        Clock.make_step current_time self w = (self', w', inr results) ->
        keys results = Clock.due_ids current_time self
        /\ Clock.invocations current_time self w
           = map (fun p => (p.1, inr p.2)) results
        /\ Clock.events self'
           = map (fun p =>
                    (p.1,
                     if (0 <? Clock.timer p.2) && (Clock.timer p.2 <? current_time)
                     then Clock.EventData (current_time + Clock.delay p.2)
                                          (Clock.function p.2) (Clock.delay p.2)
                     else p.2))
                 (Clock.events self)
        /\ (forall id e,
              dict_get id (Clock.events self) = Some e ->
              0 < Clock.timer e < current_time ->
              id ∈ keys results
              /\ dict_get id (Clock.events self')
                 = Some (Clock.EventData (current_time + Clock.delay e)
                                         (Clock.function e) (Clock.delay e)))
        /\ (forall id e,
              dict_get id (Clock.events self) = Some e ->
              ~ 0 < Clock.timer e < current_time ->
              dict_get id (Clock.events self') = Some e))
  /\ (forall event cb delay,
        0 < delay ->
        let added := Clock.add event cb delay current_time self in
        (event ∉ keys (Clock.invocations current_time added w))
        /\ dict_get event (Clock.events (Clock.make_step current_time added w).1.1)
           = Some (Clock.EventData (current_time + delay) cb delay)
        /\ forall self' w' results,
             Clock.make_step current_time added w = (self', w', inr results) ->
             event ∉ keys results).
Proof.
  intros Hwf. split; [|split].
  - destruct (invocations_due current_time self w) as [rest Hrest].
    pose proof (due_events_keys_NoDup current_time _ Hwf) as Hnd.
    fold (Clock.due_ids current_time self) in Hnd. rewrite Hrest in Hnd.
    split.
    + now apply NoDup_app in Hnd as [? _].
    + intros id Hid. rewrite Hrest. apply elem_of_app. now left.
  - intros self' w' results Hstep.
    destruct (make_step_returns _ _ _ _ _ _ Hwf Hstep) as (Hkeys & Hlog & Hev).
    split; [exact Hkeys|]. split; [exact Hlog|]. split; [|split].
    + rewrite Hev. apply map_ext. intros [id e]. simpl.
      now rewrite reschedule_explicit.
    + intros id e Hget [Hpos Hlt].
      assert (Hdue : Clock.due current_time e = true).
      { unfold Clock.due. apply andb_true_iff. split; now apply Z.ltb_lt. }
      split.
      * rewrite Hkeys. now apply dict_get_due_events with e.
      * rewrite Hev, dict_get_rescheduled, Hget. simpl.
        rewrite reschedule_explicit. fold (Clock.due current_time e).
        now rewrite Hdue.
    + intros id e Hget Hnot.
      assert (Hdue : Clock.due current_time e = false).
      { unfold Clock.due. apply andb_false_iff.
        destruct (Z.ltb_spec 0 (Clock.timer e)); [|now left].
        destruct (Z.ltb_spec (Clock.timer e) current_time); [|now right].
        exfalso. apply Hnot. now split. }
      rewrite Hev, dict_get_rescheduled, Hget. simpl.
      rewrite reschedule_explicit. fold (Clock.due current_time e).
      now rewrite Hdue.
  - intros event cb delay Hd added.
    destruct (added_event_not_due event cb delay current_time self Hd)
      as [Hget Hdue]. fold added in Hget.
    assert (Hwf' : Clock.wf added) by now apply Clock_wf_add.
    pose proof (not_due_not_in_due_events current_time _ _ _ Hwf' Hget Hdue)
      as Hnot.
    fold (Clock.due_ids current_time added) in Hnot.
    split; [|split].
    + destruct (invocations_due current_time added w) as [rest Hrest].
      rewrite Hrest in Hnot. now apply not_elem_of_app in Hnot as [? _].
    + unfold Clock.make_step.
      pose proof (run_events_not_due_untouched current_time _ w [] _ _ Hget Hdue)
        as Hsame.
      now destruct (Clock.run_events _ (Clock.events added) w _)
        as [[evs' w2] out].
    + intros self' w' results Hstep.
      apply (make_step_returns _ _ _ _ _ _ Hwf') in Hstep as (-> & _ & _).
      assumption.
Qed.

(** [set] on a registered event keeps its callback and its place. *)
Lemma Clock_set_registered self event delay now e :
  dict_get event (Clock.events self) = Some e ->
  Clock.set event delay now self =
  (Clock.Make
     (dict_set event
        (Clock.EventData (Clock._calculate_next_execution_time now delay)
                         (Clock.function e) delay)
        (Clock.events self)),
   inr tt).
Proof.
  intros Hget. unfold Clock.set, Clock.update_event. rewrite Hget. simpl.
  rewrite dict_get_set_eq, dict_set_twice. reflexivity.
Qed.

(** C6. [set] with an event id that was never added raises [KeyError] and
    leaves the registered events as they were; [remove] with such an id
    changes nothing and raises nothing. *)
Theorem Clock_set_unknown_event_raises self event delay now :
  event ∉ keys (Clock.events self) ->
  Clock.set event delay now self = (self, inl KeyError)
  /\ Clock.remove event self = self.
Proof.
  intros Habsent. split.
  - unfold Clock.set, Clock.update_event.
    apply dict_get_None in Habsent. now rewrite Habsent.
  - unfold Clock.remove. rewrite dict_pop_absent by assumption.
    apply Clock_eta.
Qed.
(** What does hold of an overdue event: a step taken strictly after its due
    time, if it returns, has fired it and made it due one delay later. *)
Lemma Clock_make_step_fires_overdue self w current_time event e self' w' results :
  Clock.wf self ->
  dict_get event (Clock.events self) = Some e ->
  0 < Clock.timer e < current_time ->
  Clock.make_step current_time self w = (self', w', inr results) ->
  event ∈ keys results
  /\ dict_get event (Clock.events self')
     = Some (Clock.with_timer (current_time + Clock.delay e) e).
Proof.
  intros Hwf Hget [Hpos Hlt] Hstep.
  assert (Hdue : Clock.due current_time e = true).
  { unfold Clock.due. apply andb_true_iff. split; now apply Z.ltb_lt. }
  apply (make_step_returns _ _ _ _ _ _ Hwf) in Hstep as (-> & _ & ->).
  split.
  - now apply dict_get_due_events with e.
  - rewrite dict_get_rescheduled, Hget. simpl.
    unfold Clock.reschedule. now rewrite Hdue.
Qed.

(** C4 (the code departs from the claim and from its own docstring, "if
    the event's execution time has been reached or passed").  An event
    registered at time 1000 with delay 60 is due at 1060; a step taken at
    exactly 1060 invokes nothing, returns the empty result and leaves the
    event due at 1060.  With steps spaced exactly 60 apart the next one, at
    1120, fires the event and makes it due at 1180, and the step at 1180
    again invokes nothing. *)
Theorem Clock_step_at_exact_delay_does_not_fire (cb : Clock.callback W R) w :
  let registered := Clock.add 1 cb 60 1000 Clock.empty in
  let rescheduled := Clock.Make [(1, Clock.EventData 1180 cb 60)] in
  Clock.make_step 1060 registered w = (registered, w, inr [])
  /\ Clock.invocations 1060 registered w = []
  /\ Clock.due_ids 1060 registered = []
  /\ match cb w with
     | (w1, inr r) =>
         Clock.make_step 1120 registered w = (rescheduled, w1, inr [(1, r)])
         /\ Clock.make_step 1180 rescheduled w1 = (rescheduled, w1, inr [])
         /\ Clock.invocations 1180 rescheduled w1 = []
     | (w1, inl e) => Clock.make_step 1120 registered w = (registered, w1, inl e)
     end.
Proof.
  intros registered rescheduled. repeat split.
  unfold Clock.make_step. simpl.
  destruct (cb w) as [w1 [e|r]]; repeat split.
Qed.
End ClockFacts.

Lemma monitor_clock_wf : Clock.wf monitor_clock.
Proof.
  unfold Clock.wf. simpl. apply NoDup_cons. split.
  - intros Hin. apply list_elem_of_singleton in Hin. discriminate.
  - apply NoDup_singleton.
Defined.

Lemma Clock_make_step_fires_due_once_witness :
  Clock.wf monitor_clock
  /\ NoDup (keys (Clock.invocations 1061 monitor_clock monitor_world))
  /\ Clock.invocations 1061 monitor_clock monitor_world
     = [(1, inr (Aurora.PyStr ""))]
  /\ dict_get 1 (Clock.events (Clock.make_step 1061 monitor_clock monitor_world).1.1)
     = Some (Clock.EventData 1121
               (Aurora.check_callback (fun _ => answering 0 0 1000)) 60)
  /\ Clock.timer
       <$> dict_get 1
             (Clock.events (Clock.make_step 1061 monitor_clock monitor_world).1.1)
     = Some 1121
  /\ dict_get 2 (Clock.events (Clock.make_step 1061 monitor_clock monitor_world).1.1)
     = Some (Clock.EventData 4600 Aurora.reset_callback 3600)
  /\ (2 ∉ keys (Clock.invocations 1000
                  (Clock.add 2 (Aurora.reset_callback) 3600 1000 monitor_clock)
                  monitor_world)).
Proof.
  pose proof (Clock_make_step_fires_due_once monitor_clock monitor_world 1061
                monitor_clock_wf) as [[Hnd _] [Hret _]].
  pose proof (Clock_make_step_fires_due_once monitor_clock monitor_world 1000
                monitor_clock_wf) as [_ [_ Hadd]].
  destruct (Hadd 2 Aurora.reset_callback 3600 eq_refl) as [Hnot _].
  destruct (Hret (Clock.make_step 1061 monitor_clock monitor_world).1.1
                 (Clock.make_step 1061 monitor_clock monitor_world).1.2
                 [(1, Aurora.PyStr "")] eq_refl)
    as (_ & Hinv & _ & Hfired & Hrest).
  assert (H1 : 0 < 1060 < 1061) by lia.
  assert (H2 : ~ 0 < 4600 < 1061) by lia.
  destruct (Hfired 1 (Clock.EventData 1060
                        (Aurora.check_callback (fun _ => answering 0 0 1000)) 60)
                   eq_refl H1) as [_ Hcheck].
  pose proof (Hrest 2 (Clock.EventData 4600 Aurora.reset_callback 3600)
                    eq_refl H2) as Hreset.
  split; [exact monitor_clock_wf|]. split; [exact Hnd|]. split; [exact Hinv|].
  split; [exact Hcheck|]. split; [now rewrite Hcheck|].
  split; [exact Hreset | exact Hnot].
Defined.

Lemma Clock_set_unknown_event_raises_witness :
  (3 ∉ keys (Clock.events monitor_clock))
  /\ Clock.set 3 60 1000 monitor_clock = (monitor_clock, inl KeyError)
  /\ Clock.remove 3 monitor_clock = monitor_clock.
Proof.
  assert (H : 3 ∉ keys (Clock.events monitor_clock)).
  { intros Hin. repeat (apply elem_of_cons in Hin as [Hin|Hin]; [discriminate|]).
    now apply elem_of_nil in Hin. }
  split; [exact H | exact (Clock_set_unknown_event_raises monitor_clock 3 60 1000 H)].
Defined.

(** ** Threshold evaluation *)

Section Thresholds.
Import Aurora.
Implicit Types (v : Q) (th : thresholds) (var : level_var) (self : t).

Lemma crosses_qualifies v last level message :
  crosses v last level = true <-> qualifies v last (level, message).
Proof.
  unfold crosses, qualifies. simpl.
  rewrite andb_true_iff, Qle_bool_iff, Z.ltb_lt. reflexivity.
Qed.

Lemma getattr_setattr self var x : getattr (setattr self var x) var = x.
Proof. now destruct var. Qed.

Lemma setattr_getattr self var : setattr self var (getattr self var) = self.
Proof. now destruct self, var. Qed.

Lemma get_message_None v th var self :
  Forall (fun entry => ~ qualifies v (getattr self var) entry) th ->
  _get_message_from_levels v th var self = (self, None).
Proof.
  induction 1 as [|[level message] th Hhd _ IH]; simpl; [reflexivity|].
  destruct (crosses v (getattr self var) level) eqn:E; [|exact IH].
  now apply (crosses_qualifies _ _ _ message) in E.
Qed.

(** The scan stops at the first entry that qualifies. *)
Lemma get_message_first v th var self :
  match _get_message_from_levels v th var self with
  | (self', Some message) =>
      exists before level after,
        th = before ++ (level, message) :: after
        /\ Forall (fun entry => ~ qualifies v (getattr self var) entry) before
        /\ qualifies v (getattr self var) (level, message)
        /\ self' = setattr self var level
  | (self', None) =>
      Forall (fun entry => ~ qualifies v (getattr self var) entry) th
      /\ self' = self
  end.
Proof.
  induction th as [|[level message] th IH]; simpl; [now split|].
  destruct (crosses v (getattr self var) level) eqn:E.
  - exists [], level, th. repeat split; [constructor | | ].
    + now apply (crosses_qualifies _ _ _ message) in E as [? _].
    + now apply (crosses_qualifies _ _ _ message) in E as [_ ?].
  - assert (Hno : ~ qualifies v (getattr self var) (level, message)).
    { intros H. apply crosses_qualifies in H. congruence. }
    destruct (_get_message_from_levels v th var self) as [self' [m|]].
    + destruct IH as (before & level' & after & -> & Hb & Hq & ->).
      exists ((level, message) :: before), level', after.
      repeat split; try apply Hq. now constructor.
    + destruct IH as [Hall ->]. split; [now constructor | reflexivity].
Qed.

Lemma AURORA_LEVELS_lookup language th :
  AURORA_LEVELS !! language = Some th ->
  th = AURORA_LEVELS_pl \/ th = AURORA_LEVELS_en.
Proof.
  unfold AURORA_LEVELS. intros H.
  apply lookup_insert_Some in H as [[_ <-]|[_ H]]; [now left|].
  apply lookup_insert_Some in H as [[_ <-]|[_ H]]; [now right|].
  now rewrite lookup_empty in H.
Qed.

Lemma K_INDEX_LEVELS_lookup language th :
  K_INDEX_LEVELS !! language = Some th ->
  th = K_INDEX_LEVELS_pl \/ th = K_INDEX_LEVELS_en.
Proof.
  unfold K_INDEX_LEVELS. intros H.
  apply lookup_insert_Some in H as [[_ <-]|[_ H]]; [now left|].
  apply lookup_insert_Some in H as [[_ <-]|[_ H]]; [now right|].
  now rewrite lookup_empty in H.
Qed.

Ltac table_descending :=
  unfold descending; repeat (constructor; simpl; try lia).

Lemma tables_descending language th :
  AURORA_LEVELS !! language = Some th \/ K_INDEX_LEVELS !! language = Some th ->
  descending th.
Proof.
  intros [H|H];
    [apply AURORA_LEVELS_lookup in H | apply K_INDEX_LEVELS_lookup in H];
    destruct H as [-> | ->]; table_descending.
Qed.

(** C1. The threshold table is scanned in its order, which is descending by
    level; the first entry whose level is at most the current value and
    strictly above the stored last level ([last_aurora_level], respectively
    [last_k_level]) sets that stored level to its level, leaves every other
    attribute as it is, and its message is returned; if no entry qualifies
    the object is unchanged and nothing is returned.  With the English aurora
    table and the value 55, an object at level 0 returns the level-50 message
    and goes to level 50, and an object at level 50 returns nothing and stays
    at 50. *)
Theorem Aurora_get_message_first_qualifying_entry :
  (forall v th self,
     match _get_message_from_levels v th last_aurora_level_var self with
     | (self', Some message) =>
         exists before level after,
           th = before ++ (level, message) :: after
           /\ Forall (fun entry => ~ qualifies v (last_aurora_level self) entry)
                     before
           /\ (inject_Z level <= v)%Q /\ last_aurora_level self < level
           /\ last_aurora_level self' = level
           /\ self' = {| api_key := api_key self; user_key := user_key self;
                         latitude := latitude self; longitude := longitude self;
                         language := language self; is_day := is_day self;
                         last_send_time := last_send_time self;
                         last_k_level := last_k_level self;
                         last_aurora_level := level |}
     | (self', None) =>
         Forall (fun entry => ~ qualifies v (last_aurora_level self) entry) th
         /\ self' = self
     end)
  /\ (forall v th self,
        match _get_message_from_levels v th last_k_level_var self with
        | (self', Some message) =>
            exists before level after,
              th = before ++ (level, message) :: after
              /\ Forall (fun entry => ~ qualifies v (last_k_level self) entry)
                        before
              /\ (inject_Z level <= v)%Q /\ last_k_level self < level
              /\ last_k_level self' = level
              /\ self' = {| api_key := api_key self; user_key := user_key self;
                            latitude := latitude self; longitude := longitude self;
                            language := language self; is_day := is_day self;
                            last_send_time := last_send_time self;
                            last_k_level := level;
                            last_aurora_level := last_aurora_level self |}
        | (self', None) =>
            Forall (fun entry => ~ qualifies v (last_k_level self) entry) th
            /\ self' = self
        end)
  /\ (forall language th,
        AURORA_LEVELS !! language = Some th
        \/ K_INDEX_LEVELS !! language = Some th ->
        descending th)
  /\ (forall a u lat lon lang day sent k,
        _get_message_from_levels 55 AURORA_LEVELS_en last_aurora_level_var
          (Make a u lat lon lang day sent k 0)
        = (Make a u lat lon lang day sent k 50,
           Some "Locally: 50. Something might happen. Take a break.")
        /\ _get_message_from_levels 55 AURORA_LEVELS_en last_aurora_level_var
             (Make a u lat lon lang day sent k 50)
           = (Make a u lat lon lang day sent k 50, None)
        /\ _get_message_from_levels 75 AURORA_LEVELS_en last_aurora_level_var
             (Make a u lat lon lang day sent k 50)
           = (Make a u lat lon lang day sent k 70,
              Some "Locally: 70. Very likely.")
        /\ _get_message_from_levels 29 AURORA_LEVELS_en last_aurora_level_var
             (Make a u lat lon lang day sent k 0)
           = (Make a u lat lon lang day sent k 0, None))
  /\ (forall a u lat lon lang day sent aurora,
        _get_message_from_levels (11 # 2) K_INDEX_LEVELS_en last_k_level_var
          (Make a u lat lon lang day sent 0 aurora)
        = (Make a u lat lon lang day sent 5 aurora,
           Some "Globally: 5. There might be a chance today.")
        /\ _get_message_from_levels (11 # 2) K_INDEX_LEVELS_en last_k_level_var
             (Make a u lat lon lang day sent 5 aurora)
           = (Make a u lat lon lang day sent 5 aurora, None)).
Proof.
  split; [|split; [|split; [exact tables_descending|split]]].
  - intros v th self.
    pose proof (get_message_first v th last_aurora_level_var self) as H.
    destruct (_get_message_from_levels v th last_aurora_level_var self)
      as [self' [message|]]; [|exact H].
    destruct H as (before & level & after & Hth & Hbefore & [Hle Hlt] & Hself).
    exists before, level, after. simpl in Hle, Hlt.
    repeat split; try assumption. now rewrite Hself.
  - intros v th self.
    pose proof (get_message_first v th last_k_level_var self) as H.
    destruct (_get_message_from_levels v th last_k_level_var self)
      as [self' [message|]]; [|exact H].
    destruct H as (before & level & after & Hth & Hbefore & [Hle Hlt] & Hself).
    exists before, level, after. simpl in Hle, Hlt.
    repeat split; try assumption. now rewrite Hself.
  - intros a u lat lon lang day sent k. now repeat split.
  - intros a u lat lon lang day sent aurora. now repeat split.
Qed.

Lemma get_message_state v th var self :
  exists level,
    (_get_message_from_levels v th var self).1 = setattr self var level
    /\ getattr self var <= level.
Proof.
  pose proof (get_message_first v th var self) as H.
  destruct (_get_message_from_levels v th var self) as [self' [m|]]; simpl.
  - destruct H as (_ & level & _ & _ & _ & [_ Hlt] & ->).
    exists level. split; [reflexivity | simpl in Hlt; lia].
  - destruct H as [_ ->]. exists (getattr self var).
    split; [now rewrite setattr_getattr | lia].
Qed.

Lemma get_message_monotone v th var self :
  getattr self var <= getattr (_get_message_from_levels v th var self).1 var.
Proof.
  destruct (get_message_state v th var self) as (level & -> & H).
  now rewrite getattr_setattr.
Qed.

Lemma get_message_level v th var self message :
  (_get_message_from_levels v th var self).2 = Some message ->
  exists level,
    (level, message) ∈ th
    /\ qualifies v (getattr self var) (level, message)
    /\ getattr (_get_message_from_levels v th var self).1 var = level.
Proof.
  pose proof (get_message_first v th var self) as H.
  destruct (_get_message_from_levels v th var self) as [self' [m|]]; simpl;
    [|discriminate].
  intros [= ->]. destruct H as (before & level & after & -> & _ & Hq & ->).
  exists level. split; [|split; [exact Hq | apply getattr_setattr]].
  apply elem_of_app. right. apply elem_of_cons. now left.
Qed.

(** Once a value has been scanned, no entry of a descending table qualifies
    for it any more. *)
Lemma get_message_settles v th var self :
  descending th ->
  Forall (fun entry =>
            ~ qualifies v (getattr (_get_message_from_levels v th var self).1 var)
                entry) th.
Proof.
  induction 1 as [|[level message] th Hsorted IH Hbelow]; simpl; [constructor|].
  destruct (crosses v (getattr self var) level) eqn:E; simpl.
  - rewrite getattr_setattr. constructor.
    + intros [_ Hlt]. simpl in Hlt. lia.
    + eapply Forall_impl; [exact Hbelow|].
      intros entry Hentry [_ Hlt]. simpl in *. lia.
  - constructor; [|exact IH].
    pose proof (get_message_monotone v th var self) as Hmono.
    intros [Hle Hlt]. simpl in *.
    assert (Hq : qualifies v (getattr self var) (level, message)).
    { split; simpl; [exact Hle|].
      destruct (Z.ltb_spec (getattr self var) level) as [?|Hge]; [assumption|].
      unfold crosses in E. apply andb_false_iff in E as [E|E].
      - apply Qle_bool_iff in Hle. congruence.
      - apply Z.ltb_ge in E. lia. }
    apply crosses_qualifies in Hq. congruence.
Qed.

Lemma get_message_repeat v th var self self' :
  descending th ->
  getattr self' var = getattr (_get_message_from_levels v th var self).1 var ->
  _get_message_from_levels v th var self' = (self', None).
Proof.
  intros Hsorted Heq. apply get_message_None. rewrite Heq.
  now apply get_message_settles.
Qed.
End Thresholds.

(** ** The check cycle *)

Section Check.
Import Aurora.
Implicit Types (net : network) (self : t).

Lemma evaluate_aurora_unfold net self :
  _evaluate_aurora_level net self =
  match aurora_reading net self with
  | inl e => Run self [] (inl e)
  | inr (v, th) =>
      let scan := _get_message_from_levels v th last_aurora_level_var self in
      Run scan.1 [] (inr scan.2)
  end.
Proof.
  unfold _evaluate_aurora_level, aurora_reading, mbind, method_bind, lift,
    get_self, call. simpl.
  destruct (_download_aurora_data (aurora_feed net)) as [e|data]; simpl;
    [reflexivity|].
  destruct (_process_aurora_data data) as [e|coordinates]; simpl;
    [reflexivity|].
  destruct (getitem AURORA_LEVELS (language self)) as [e|th]; reflexivity.
Qed.

Lemma evaluate_k_index_unfold net self :
  _evaluate_k_index_level net self =
  match k_index_reading net self with
  | inl e => Run self [] (inl e)
  | inr (v, th) =>
      let scan := _get_message_from_levels v th last_k_level_var self in
      Run scan.1 [] (inr scan.2)
  end.
Proof.
  unfold _evaluate_k_index_level, k_index_reading, mbind, method_bind, lift,
    get_self, call. simpl.
  destruct (_download_k_index_data (k_index_feed net)) as [e|[k_time k_index]];
    simpl; [reflexivity|].
  destruct (getitem K_INDEX_LEVELS (language self)) as [e|th]; reflexivity.
Qed.

(** [check] with the two evaluations spelled out. *)
Lemma check_unfold net self :
  check net self =
  match aurora_reading net self with
  | inl e => Run self [] (inl e)
  | inr (v, th) =>
      let sa := _get_message_from_levels v th last_aurora_level_var self in
      match k_index_reading net sa.1 with
      | inl e => Run sa.1 [] (inl e)
      | inr (kv, kth) =>
          let sk := _get_message_from_levels kv kth last_k_level_var sa.1 in
          let message := String.concat newline (filter_none [sa.2; sk.2]) in
          if truthy message then
            if ok (push_sink net)
            then Run (set_last_send_time sk.1 (clock_now net)) [message]
                     (inr message)
            else Run sk.1 [message]
                     (inl (ConnectionError PUSH_URL (status_code (push_sink net))
                                           (content (push_sink net))))
          else Run sk.1 [] (inr message)
      end
  end.
Proof.
  unfold check, mbind, method_bind.
  rewrite !evaluate_aurora_unfold.
  destruct (aurora_reading net self) as [e|[v th]];
    cbn [after posted outcome]; [reflexivity|].
  rewrite !evaluate_k_index_unfold.
  destruct (k_index_reading net _) as [e|[kv kth]];
    cbn [after posted outcome app]; [reflexivity|].
  destruct (truthy _); [|reflexivity].
  unfold send_push, mret, method_ret.
  destruct (ok (push_sink net)); reflexivity.
Qed.

Lemma aurora_reading_config net self self' :
  language self' = language self -> longitude self' = longitude self ->
  latitude self' = latitude self ->
  aurora_reading net self' = aurora_reading net self.
Proof. unfold aurora_reading. now intros -> -> ->. Qed.

Lemma k_index_reading_config net self self' :
  language self' = language self ->
  k_index_reading net self' = k_index_reading net self.
Proof. unfold k_index_reading. now intros ->. Qed.

Lemma aurora_reading_table net self v th :
  aurora_reading net self = inr (v, th) ->
  AURORA_LEVELS !! language self = Some th.
Proof.
  unfold aurora_reading, getitem.
  destruct (_download_aurora_data _) as [|data]; [discriminate|].
  destruct (_process_aurora_data data) as [|coordinates]; [discriminate|].
  destruct (AURORA_LEVELS !! language self); [|discriminate].
  now intros [= _ ->].
Qed.

Lemma k_index_reading_table net self v th :
  k_index_reading net self = inr (v, th) ->
  K_INDEX_LEVELS !! language self = Some th.
Proof.
  unfold k_index_reading, getitem.
  destruct (_download_k_index_data _) as [|[k_time k_index]]; [discriminate|].
  destruct (K_INDEX_LEVELS !! language self); [|discriminate].
  now intros [= _ ->].
Qed.

Lemma check_not_lowered net self : not_lowered self (after (check net self)).
Proof.
  rewrite check_unfold. unfold not_lowered.
  destruct (aurora_reading net self) as [e|[v th]]; [simpl; lia|].
  cbv zeta.
  destruct (get_message_state v th last_aurora_level_var self)
    as (la & -> & Hla).
  destruct (k_index_reading net _) as [e|[kv kth]]; [simpl in *; lia|].
  destruct (get_message_state kv kth last_k_level_var
              (setattr self last_aurora_level_var la)) as (lk & -> & Hlk).
  destruct (truthy _); [destruct (ok (push_sink net))|]; simpl in *; lia.
Qed.

Lemma run_checks_not_lowered nets self : not_lowered self (run_checks nets self).
Proof.
  revert self. induction nets as [|net nets IH]; intros self; simpl.
  - unfold not_lowered. lia.
  - specialize (IH (after (check net self))).
    pose proof (check_not_lowered net self). unfold not_lowered in *. lia.
Qed.

(** The configuration of the monitor is never written. *)
Lemma check_config net self :
  language (after (check net self)) = language self
  /\ longitude (after (check net self)) = longitude self
  /\ latitude (after (check net self)) = latitude self.
Proof.
  rewrite check_unfold.
  destruct (aurora_reading net self) as [e|[v th]]; [easy|].
  cbv zeta.
  destruct (get_message_state v th last_aurora_level_var self)
    as (la & -> & Hla).
  destruct (k_index_reading net _) as [e|[kv kth]]; [easy|].
  destruct (get_message_state kv kth last_k_level_var
              (setattr self last_aurora_level_var la)) as (lk & -> & Hlk).
  destruct (truthy _); [destruct (ok (push_sink net))|]; easy.
Qed.

Lemma run_checks_config nets self :
  language (run_checks nets self) = language self
  /\ longitude (run_checks nets self) = longitude self
  /\ latitude (run_checks nets self) = latitude self.
Proof.
  revert self. induction nets as [|net nets IH]; intros self; simpl; [easy|].
  destruct (IH (after (check net self))) as (-> & -> & ->).
  apply check_config.
Qed.

(** A second check that reads what the first one read sends nothing. *)
Lemma check_twice_posts_nothing net self :
  posted (check net (after (check net self))) = [].
Proof.
  destruct (check_config net self) as (Hlang & Hlon & Hlat).
  rewrite (check_unfold net (after _)).
  rewrite (aurora_reading_config net self) by assumption.
  revert Hlang Hlon Hlat. rewrite (check_unfold net self).
  destruct (aurora_reading net self) as [e|[v th]] eqn:Ea; [easy|].
  pose proof (tables_descending _ _ (or_introl (aurora_reading_table _ _ _ _ Ea)))
    as Hth.
  cbv zeta.
  pose proof (get_message_repeat v th last_aurora_level_var self) as Hrep.
  destruct (get_message_state v th last_aurora_level_var self)
    as (la & Hsa & Hla).
  rewrite Hsa in *.
  destruct (k_index_reading net (setattr self last_aurora_level_var la))
    as [e|[kv kth]] eqn:Ek.
  - cbn [after]. intros _ _ _.
    rewrite (Hrep _ Hth eq_refl). cbn [fst snd]. now rewrite Ek.
  - pose proof (tables_descending _ _ (or_intror (k_index_reading_table _ _ _ _ Ek)))
      as Hkth.
    pose proof (get_message_repeat kv kth last_k_level_var
                  (setattr self last_aurora_level_var la)) as Hrepk.
    destruct (get_message_state kv kth last_k_level_var
                (setattr self last_aurora_level_var la)) as (lk & Hsk & Hlk).
    rewrite Hsk in *.
    set (s1 := after _). intros Hlang Hlon Hlat.
    assert (Ha : getattr s1 last_aurora_level_var = la).
    { subst s1. destruct (truthy _); [destruct (ok (push_sink net))|]; reflexivity. }
    assert (Hk : getattr s1 last_k_level_var = lk).
    { subst s1. destruct (truthy _); [destruct (ok (push_sink net))|]; reflexivity. }
    rewrite (Hrep s1 Hth) by (rewrite Ha; reflexivity).
    cbn [fst snd].
    rewrite (k_index_reading_config net (setattr self last_aurora_level_var la))
      by (rewrite Hlang; reflexivity).
    rewrite Ek.
    rewrite (Hrepk s1 Hkth) by (rewrite Hk; reflexivity).
    reflexivity.
Qed.

(** C2. A scan never lowers the stored last level, and neither does any
    sequence of checks, for either metric; a message that is emitted belongs
    to a level strictly above the stored one; a value below every threshold
    that lies above the stored level emits nothing and changes nothing; and
    scanning or checking the same input a second time emits nothing. *)
Theorem Aurora_last_level_never_decreases :
  (forall v th var self,
     let scan := _get_message_from_levels v th var self in
     getattr self var <= getattr scan.1 var
     /\ (forall message,
           scan.2 = Some message ->
           exists level,
             (level, message) ∈ th /\ getattr self var < level
             /\ getattr scan.1 var = level)
     /\ ((forall entry, entry ∈ th -> getattr self var < entry.1 ->
                        (v < inject_Z entry.1)%Q) ->
         scan = (self, None)))
  /\ (forall nets self,
        last_aurora_level self <= last_aurora_level (run_checks nets self)
        /\ last_k_level self <= last_k_level (run_checks nets self))
  /\ (forall v th var self,
        descending th ->
        let once := (_get_message_from_levels v th var self).1 in
        _get_message_from_levels v th var once = (once, None))
  /\ (forall net self, posted (check net (after (check net self))) = []).
Proof.
  split; [|split; [|split]].
  - intros v th var self scan. split; [apply get_message_monotone|]. split.
    + intros message Hm.
      destruct (get_message_level v th var self message Hm)
        as (level & Hin & [_ Hlt] & Hlevel).
      exists level. now repeat split.
    + intros Hbelow. apply get_message_None. apply Forall_forall.
      intros entry Hin [Hle Hlt].
      specialize (Hbelow entry Hin Hlt).
      now apply Qlt_not_le in Hbelow.
  - intros nets self. apply run_checks_not_lowered.
  - intros v th var self Hth once. now apply (get_message_repeat v th var self).
  - apply check_twice_posts_nothing.
Qed.

Lemma messages_distinct (th : thresholds) level level' message :
  NoDup th.*2 -> (level, message) ∈ th -> (level', message) ∈ th ->
  level = level'.
Proof.
  induction th as [|[l m] th IH]; simpl.
  - intros _ H. now apply elem_of_nil in H.
  - intros [Hm Hnd]%NoDup_cons H1 H2.
    apply elem_of_cons in H1 as [[= -> ->]|H1];
      apply elem_of_cons in H2 as [[= ->]|H2]; try reflexivity.
    + exfalso. apply Hm. change m with (level', m).2. now apply list_elem_of_fmap_2.
    + subst. exfalso. apply Hm. change m with (level, m).2.
      now apply list_elem_of_fmap_2.
    + now apply IH.
Qed.

Lemma aurora_messages_distinct language th :
  AURORA_LEVELS !! language = Some th -> NoDup th.*2.
Proof.
  intros [-> | ->]%AURORA_LEVELS_lookup;
    apply (bool_decide_unpack _); vm_compute; exact I.
Qed.

(** C5. When the aurora evaluation of a check has crossed a new threshold
    and the K-index download then raises, the exception leaves [check], no
    notification is sent, and the object keeps the raised aurora level; no
    later check, however many follow without a reset, will report the
    message of that level. *)
Theorem Aurora_check_not_atomic_on_k_index_error net self e message :
  outcome (_evaluate_aurora_level net self) = inr (Some message) ->
  _download_k_index_data (k_index_feed net) = inl e ->
  let failed := check net self in
  outcome failed = inl e
  /\ posted failed = []
  /\ after failed = after (_evaluate_aurora_level net self)
  /\ last_aurora_level self < last_aurora_level (after failed)
  /\ forall nets net',
       outcome (_evaluate_aurora_level net' (run_checks nets (after failed)))
       <> inr (Some message).
Proof.
  intros Haurora Hk failed. subst failed.
  rewrite check_unfold. rewrite evaluate_aurora_unfold in *.
  destruct (aurora_reading net self) as [e0|[v th]] eqn:Ea; [discriminate|].
  cbv zeta in *. cbn [outcome after] in *.
  assert (Hkr : forall s, k_index_reading net s = inl e).
  { intros s. unfold k_index_reading. now rewrite Hk. }
  rewrite Hkr. cbn [outcome posted after].
  injection Haurora as Hm.
  destruct (get_message_level _ _ _ _ _ Hm) as (level & Hin & [_ Hlt] & Hlevel).
  simpl in Hlt, Hlevel.
  repeat split; [lia|].
  intros nets net' Hlater.
  set (s1 := (_get_message_from_levels v th last_aurora_level_var self).1) in *.
  destruct (run_checks_config nets s1) as (Hlang & _ & _).
  pose proof (run_checks_not_lowered nets s1) as [Hmono _].
  rewrite evaluate_aurora_unfold in Hlater.
  destruct (aurora_reading net' _) as [e1|[v' th']] eqn:Ea'; [discriminate|].
  cbv zeta in Hlater. cbn [outcome] in Hlater. injection Hlater as Hm'.
  apply aurora_reading_table in Ea, Ea'.
  assert (Hs1 : language s1 = language self).
  { subst s1.
    destruct (get_message_state v th last_aurora_level_var self) as (x & -> & _).
    reflexivity. }
  rewrite Hlang, Hs1, Ea in Ea'. injection Ea' as <-.
  destruct (get_message_level _ _ _ _ _ Hm') as (level' & Hin' & [_ Hlt'] & _).
  simpl in Hlt'.
  pose proof (messages_distinct th level level' message
                (aurora_messages_distinct _ _ Ea) Hin Hin') as <-.
  lia.
Qed.

Lemma zero_crosses_no_aurora_level language th var self :
  AURORA_LEVELS !! language = Some th ->
  _get_message_from_levels 0 th var self = (self, None).
Proof. now intros [-> | ->]%AURORA_LEVELS_lookup. Qed.

(** C7. When the coordinate map has no entry under the configured
    (longitude, latitude), the aurora evaluation is the scan of the value 0:
    it produces no message and leaves the object as it was, whatever the
    other entries of the map hold. *)
Theorem Aurora_missing_grid_point_no_message net self data coordinates :
  _download_aurora_data (aurora_feed net) = inr data ->
  _process_aurora_data data = inr coordinates ->
  coordinates !! (longitude self, latitude self) = None ->
  let evaluated := _evaluate_aurora_level net self in
  evaluated
  = (thresholds ← lift (getitem AURORA_LEVELS (language self));
     call (_get_message_from_levels 0 thresholds last_aurora_level_var)) self
  /\ after evaluated = self
  /\ posted evaluated = []
  /\ (forall message, outcome evaluated <> inr (Some message))
  /\ (is_Some (AURORA_LEVELS !! language self) -> outcome evaluated = inr None).
Proof.
  intros Hdata Hmap Hmiss evaluated. subst evaluated.
  assert (Heq : _evaluate_aurora_level net self
                = (thresholds ← lift (getitem AURORA_LEVELS (language self));
                   call (_get_message_from_levels 0 thresholds
                           last_aurora_level_var)) self).
  { unfold _evaluate_aurora_level, mbind, method_bind, lift, get_self.
    cbn [after posted outcome]. rewrite Hdata. cbn [after posted outcome].
    rewrite Hmap. cbn [after posted outcome]. rewrite Hmiss.
    destruct (getitem AURORA_LEVELS (language self)); reflexivity. }
  split; [exact Heq|]. rewrite Heq.
  unfold mbind, method_bind, lift, call, getitem. cbn [after posted outcome].
  destruct (AURORA_LEVELS !! language self) as [th|] eqn:Eth;
    cbn [after posted outcome].
  - rewrite (zero_crosses_no_aurora_level _ _ _ _ Eth). now repeat split.
  - repeat split; [discriminate | now intros [? [=]]].
Qed.

(** C8. When the aurora feed answers with a success status and a payload
    whose coordinate list is missing or empty, [check] raises [ValueError];
    no level has been evaluated or changed and nothing has been sent. *)
Theorem Aurora_check_empty_coordinates_raises net self :
  ok (aurora_feed net) = true ->
  coordinates_field (json (aurora_feed net)) = None
  \/ coordinates_field (json (aurora_feed net)) = Some [] ->
  _process_aurora_data (json (aurora_feed net)) = inl ValueError
  /\ check net self = Run self [] (inl ValueError).
Proof.
  intros Hok Hempty.
  assert (Hp : _process_aurora_data (json (aurora_feed net)) = inl ValueError).
  { unfold _process_aurora_data.
    destruct Hempty as [-> | ->]; simpl;
      (destruct (decide _); [reflexivity | contradiction]). }
  split; [exact Hp|].
  rewrite check_unfold. unfold aurora_reading, _download_aurora_data.
  now rewrite Hok, Hp.
Qed.
End Check.

(** ** Reset and the day/night policy *)

Section ResetAndDaytime.
Import Aurora.

(** C9. [reset] sets both stored levels to 0, sends nothing and raises
    nothing; when both levels are already 0 it changes nothing; two resets
    are one reset; and after a reset the value 55, which had fired level 50
    of the English aurora table and then nothing, fires level 50 again, for
    the scan as for the whole check. *)
Theorem Aurora_reset_idempotent :
  (forall self,
     last_aurora_level (after (reset self)) = 0
     /\ last_k_level (after (reset self)) = 0
     /\ posted (reset self) = []
     /\ outcome (reset self) = inr tt)
  /\ (forall self,
        last_aurora_level self = 0 -> last_k_level self = 0 ->
        reset self = Run self [] (inr tt))
  /\ (forall self, reset (after (reset self)) = reset self)
  /\ (forall self,
        let scan := _get_message_from_levels 55 AURORA_LEVELS_en
                      last_aurora_level_var in
        let level_50 := "Locally: 50. Something might happen. Take a break." in
        let first := scan (after (reset self)) in
        first.2 = Some level_50
        /\ (scan first.1).2 = None
        /\ (scan (after (reset first.1))).2 = Some level_50
        /\ last_aurora_level (scan (after (reset first.1))).1 = 50)
  /\ (forall clock_time,
        let net := answering 55 0 clock_time in
        let level_50 := "Locally: 50. Something might happen. Take a break." in
        let first := check net english_monitor in
        posted first = [level_50]
        /\ posted (check net (after first)) = []
        /\ posted (check net (after (reset (after first)))) = [level_50]).
Proof.
  split; [|split; [|split; [|split]]].
  - intros self. now repeat split.
  - intros [] H1 H2. simpl in *. subst. reflexivity.
  - intros self. reflexivity.
  - intros self. now repeat split.
  - intros clock_time. now repeat split.
Qed.

Context {W R : Type}.

(** C10. When the day/night value computed from the wall clock equals the
    cached [is_day], [update_daytime_delay] changes nothing.  When it
    differs, [is_day] becomes the computed value and the reset event, and
    only it, gets a new delay and is due one delay from now: 4 hours by day,
    1 hour by night; every other event, the order of the events and the
    other attributes of the monitor stay as they were. *)
Theorem Aurora_update_daytime_delay_rearms_reset
        (time_1 time_2 : datetime.time) (now : Z) (self : t)
        (clock : Clock.t W R) (e : Clock.event_data W R) :
  dict_get RESET_EVENT (Clock.events clock) = Some e ->
  (is_daytime time_1 = is_day self ->
   update_daytime_delay time_1 time_2 now self clock = (self, clock, inr tt))
  /\ (is_daytime time_1 <> is_day self ->
      let delay := if is_daytime time_2 then 4 * 3600 else 3600 in
      exists self' clock',
        update_daytime_delay time_1 time_2 now self clock
        = (self', clock', inr tt)
        /\ self' = set_is_day self (is_daytime time_2)
        /\ is_day self' = is_daytime time_2
        /\ last_aurora_level self' = last_aurora_level self
        /\ last_k_level self' = last_k_level self
        /\ last_send_time self' = last_send_time self
        /\ dict_get RESET_EVENT (Clock.events clock')
           = Some (Clock.EventData (now + delay) (Clock.function e) delay)
        /\ (forall event, event <> RESET_EVENT ->
              dict_get event (Clock.events clock')
              = dict_get event (Clock.events clock))
        /\ keys (Clock.events clock') = keys (Clock.events clock)).
Proof.
  intros Hget. split.
  - intros Heq. unfold update_daytime_delay. now rewrite Heq, eqb_reflx.
  - intros Hne delay. unfold update_daytime_delay.
    destruct (Bool.eqb (is_daytime time_1) (is_day self)) eqn:E;
      [now apply eqb_prop in E|].
    cbn [negb]. rewrite (Clock_set_registered clock _ _ _ e Hget).
    eexists _, _. split; [reflexivity|].
    assert (Hd : (if is_day (set_is_day self (is_daytime time_2))
                  then SEND_DELAY_DAY else SEND_DELAY) = delay) by reflexivity.
    rewrite Hd.
    assert (Hpos : 0 < delay) by (subst delay; destruct (is_daytime time_2); lia).
    rewrite (calculate_next_positive now delay Hpos).
    repeat split.
    + apply dict_get_set_eq.
    + intros event Hev. cbn [Clock.events]. apply dict_get_set_ne. congruence.
    + cbn [Clock.events]. apply keys_dict_set_present.
      eapply dict_get_Some_elem. exact Hget.
Qed.
End ResetAndDaytime.

(** ** The theorems at concrete inputs *)

Lemma Aurora_check_not_atomic_on_k_index_error_witness :
  Aurora.outcome (Aurora._evaluate_aurora_level k_index_down english_monitor)
  = inr (Some "Locally: 50. Something might happen. Take a break."%string)
  /\ Aurora._download_k_index_data (k_index_feed k_index_down)
     = inl (ConnectionError K_INDEX_URL 503 "Service Unavailable")
  /\ Aurora.outcome (Aurora.check k_index_down english_monitor)
     = inl (ConnectionError K_INDEX_URL 503 "Service Unavailable")
  /\ Aurora.posted (Aurora.check k_index_down english_monitor) = []
  /\ Aurora.last_aurora_level english_monitor
     < Aurora.last_aurora_level
         (Aurora.after (Aurora.check k_index_down english_monitor)).
Proof.
  destruct (Aurora_check_not_atomic_on_k_index_error k_index_down english_monitor
              (ConnectionError K_INDEX_URL 503 "Service Unavailable")
              "Locally: 50. Something might happen. Take a break."
              eq_refl eq_refl) as (H1 & H2 & _ & H3 & _).
  split; [reflexivity|]. split; [reflexivity|].
  split; [exact H1|]. split; [exact H2 | exact H3].
Defined.

Lemma Aurora_missing_grid_point_no_message_witness :
  Aurora._download_aurora_data (aurora_feed off_grid)
  = inr (AuroraJson (Some [(0, 0, 99%Q); (17, 60, 80%Q)]))
  /\ Aurora._process_aurora_data (AuroraJson (Some [(0, 0, 99%Q); (17, 60, 80%Q)]))
     = inr (Aurora.coordinate_map [(0, 0, 99%Q); (17, 60, 80%Q)])
  /\ Aurora.coordinate_map [(0, 0, 99%Q); (17, 60, 80%Q)]
       !! (Aurora.longitude english_monitor, Aurora.latitude english_monitor)
     = None
  /\ Aurora.after (Aurora._evaluate_aurora_level off_grid english_monitor)
     = english_monitor
  /\ Aurora.outcome (Aurora._evaluate_aurora_level off_grid english_monitor)
     = inr None.
Proof.
  assert (H1 : Aurora._download_aurora_data (aurora_feed off_grid)
               = inr (AuroraJson (Some [(0, 0, 99%Q); (17, 60, 80%Q)])))
    by reflexivity.
  assert (H2 : Aurora._process_aurora_data
                 (AuroraJson (Some [(0, 0, 99%Q); (17, 60, 80%Q)]))
               = inr (Aurora.coordinate_map [(0, 0, 99%Q); (17, 60, 80%Q)]))
    by reflexivity.
  assert (H3 : Aurora.coordinate_map [(0, 0, 99%Q); (17, 60, 80%Q)]
                 !! (Aurora.longitude english_monitor,
                     Aurora.latitude english_monitor) = None)
    by reflexivity.
  destruct (Aurora_missing_grid_point_no_message off_grid english_monitor _ _
              H1 H2 H3) as (_ & Hafter & _ & _ & Hout).
  split; [exact H1|]. split; [exact H2|]. split; [exact H3|].
  split; [exact Hafter|].
  exact (Hout (ex_intro _ Aurora.AURORA_LEVELS_en eq_refl)).
Defined.

Lemma Aurora_check_empty_coordinates_raises_witness :
  ok (aurora_feed empty_feed) = true
  /\ coordinates_field (json (aurora_feed empty_feed)) = Some []
  /\ Aurora.check empty_feed english_monitor
     = Aurora.Run english_monitor [] (inl ValueError).
Proof.
  split; [reflexivity|]. split; [reflexivity|].
  exact (proj2 (Aurora_check_empty_coordinates_raises empty_feed english_monitor
                  eq_refl (or_intror eq_refl))).
Defined.

Lemma Aurora_update_daytime_delay_rearms_reset_witness :
  dict_get Aurora.RESET_EVENT (Clock.events monitor_clock)
  = Some (Clock.EventData 4600 (Aurora.reset_callback) 3600)
  /\ Aurora.is_daytime noon <> Aurora.is_day english_monitor
  /\ exists self' clock',
       Aurora.update_daytime_delay noon noon 2000 english_monitor monitor_clock
       = (self', clock', inr tt)
       /\ Aurora.is_day self' = true
       /\ dict_get Aurora.RESET_EVENT (Clock.events clock')
          = Some (Clock.EventData 16400 (Aurora.reset_callback) 14400)
       /\ dict_get Aurora.CHECK_EVENT (Clock.events clock')
          = dict_get Aurora.CHECK_EVENT (Clock.events monitor_clock).
Proof.
  assert (Hget : dict_get Aurora.RESET_EVENT (Clock.events monitor_clock)
                 = Some (Clock.EventData 4600 (Aurora.reset_callback) 3600))
    by reflexivity.
  assert (Hne : Aurora.is_daytime noon <> Aurora.is_day english_monitor)
    by discriminate.
  split; [exact Hget|]. split; [exact Hne|].
  destruct (Aurora_update_daytime_delay_rearms_reset noon noon 2000
              english_monitor monitor_clock _ Hget) as [_ Hdiff].
  destruct (Hdiff Hne)
    as (self' & clock' & Hrun & _ & Hday & _ & _ & _ & Hreset & Hother & _).
  exists self', clock'. split; [exact Hrun|]. split; [exact Hday|].
  split; [exact Hreset|]. apply Hother. discriminate.
Defined.


(** * Further properties of the scheduler *)

Section DictMore.
Context {V : Type}.
Implicit Types (d : dict V) (k : Z) (v : V).

Lemma dict_get_pop_ne d k k' : k <> k' -> dict_get k' (dict_pop k d) = dict_get k' d.
Proof.
  intros Hne. induction d as [|[k0 v0] d IH]; simpl; [reflexivity|].
  destruct (Z.eqb_spec k0 k) as [->|Hk]; simpl.
  - destruct (Z.eqb_spec k k'); [congruence | reflexivity].
  - destruct (Z.eqb_spec k0 k'); [reflexivity | exact IH].
Qed.

Lemma keys_dict_pop_subset d k x : x ∈ keys (dict_pop k d) -> x ∈ keys d.
Proof.
  induction d as [|[k0 v0] d IH]; simpl; [easy|].
  destruct (Z.eqb_spec k0 k); simpl; intros H.
  - apply elem_of_cons. now right.
  - apply elem_of_cons in H as [->|H]; apply elem_of_cons; auto.
Qed.

Lemma keys_dict_pop_NoDup d k : NoDup (keys d) -> NoDup (keys (dict_pop k d)).
Proof.
  induction d as [|[k0 v0] d IH]; simpl; [easy|].
  intros [Hk0 Hnd]%NoDup_cons.
  destruct (Z.eqb_spec k0 k); simpl; [assumption|].
  apply NoDup_cons. split; [|now apply IH].
  intros Hin. apply Hk0. now apply keys_dict_pop_subset in Hin.
Qed.

Lemma dict_get_pop_eq d k : NoDup (keys d) -> dict_get k (dict_pop k d) = None.
Proof.
  induction d as [|[k0 v0] d IH]; simpl; [easy|].
  intros [Hk0 Hnd]%NoDup_cons.
  destruct (Z.eqb_spec k0 k) as [->|Hne]; simpl.
  - now apply dict_get_None.
  - destruct (Z.eqb_spec k0 k); [congruence | now apply IH].
Qed.

Lemma dict_pop_set_fresh d k v : k ∉ keys d -> dict_pop k (dict_set k v d) = d.
Proof.
  induction d as [|[k0 v0] d IH]; simpl.
  - intros _. now rewrite Z.eqb_refl.
  - intros [Hne Hd]%not_elem_of_cons.
    destruct (Z.eqb_spec k0 k); [congruence|]. simpl.
    destruct (Z.eqb_spec k0 k); [congruence|]. now rewrite IH.
Qed.
End DictMore.

Section ClockMore.
Context {W R : Type}.
Implicit Types (self : Clock.t W R) (w : W) (e : Clock.event_data W R).

(** X1. After [add] the event is registered with the given callback and
    delay, due at now + delay for a positive delay and inactive (timer 0)
    otherwise; the other events are as before; an id that was registered
    keeps its place in the iteration order and a new one goes last. *)
Theorem Clock_add_registers self event cb delay now :
  dict_get event (Clock.events (Clock.add event cb delay now self))
  = Some (Clock.EventData (if 0 <? delay then now + delay else 0) cb delay)
  /\ (forall other, other <> event ->
        dict_get other (Clock.events (Clock.add event cb delay now self))
        = dict_get other (Clock.events self))
  /\ (event ∈ keys (Clock.events self) ->
      keys (Clock.events (Clock.add event cb delay now self))
      = keys (Clock.events self))
  /\ (event ∉ keys (Clock.events self) ->
      keys (Clock.events (Clock.add event cb delay now self))
      = keys (Clock.events self) ++ [event]).
Proof.
  unfold Clock.add, Clock._calculate_next_execution_time. simpl.
  split; [apply dict_get_set_eq|]. split; [|split].
  - intros other Hne. apply dict_get_set_ne. congruence.
  - apply keys_dict_set_present.
  - intros Hfresh. rewrite dict_set_fresh by assumption.
    unfold keys. now rewrite map_app.
Qed.

(** X2. After [remove] the event is no longer registered and the other
    events are as before; removing an event that was added under a new id
    gives back the clock as it was. *)
Theorem Clock_remove_unregisters self event :
  Clock.wf self ->
  dict_get event (Clock.events (Clock.remove event self)) = None
  /\ (forall other, other <> event ->
        dict_get other (Clock.events (Clock.remove event self))
        = dict_get other (Clock.events self))
  /\ Clock.wf (Clock.remove event self)
  /\ (forall cb delay now,
        event ∉ keys (Clock.events self) ->
        Clock.remove event (Clock.add event cb delay now self) = self).
Proof.
  intros Hwf. unfold Clock.remove. simpl. split; [|split; [|split]].
  - now apply dict_get_pop_eq.
  - intros other Hne. apply dict_get_pop_ne. congruence.
  - now apply keys_dict_pop_NoDup.
  - intros cb delay now Hfresh. unfold Clock.add. simpl.
    rewrite dict_pop_set_fresh by assumption. apply Clock_eta.
Qed.

Local Abbreviation instr' := (map (@Clock.instrument_event W R)).

Lemma make_step_keys current_time self w :
  keys (Clock.events (Clock.make_step current_time self w).1.1)
  = keys (Clock.events self).
Proof.
  unfold Clock.make_step.
  pose proof (run_events_keys current_time (Clock.events self) w []) as H.
  now destruct (Clock.run_events _ (Clock.events self) w _) as [[evs' w2] out].
Qed.

Lemma make_step_untouched current_time self w k e :
  dict_get k (Clock.events self) = Some e -> Clock.due current_time e = false ->
  dict_get k (Clock.events (Clock.make_step current_time self w).1.1) = Some e.
Proof.
  intros Hget Hdue. unfold Clock.make_step.
  pose proof (run_events_not_due_untouched current_time _ w [] _ _ Hget Hdue) as H.
  now destruct (Clock.run_events _ (Clock.events self) w _) as [[evs' w2] out].
Qed.

Lemma not_due_not_invoked current_time self w k e :
  Clock.wf self -> dict_get k (Clock.events self) = Some e ->
  Clock.due current_time e = false ->
  k ∉ keys (Clock.invocations current_time self w).
Proof.
  intros Hwf Hget Hdue.
  pose proof (not_due_not_in_due_events current_time _ _ _ Hwf Hget Hdue) as Hnot.
  fold (Clock.due_ids current_time self) in Hnot.
  destruct (invocations_due current_time self w) as [rest Hrest].
  rewrite Hrest in Hnot. now apply not_elem_of_app in Hnot as [? _].
Qed.

Lemma not_due_inactive current_time e :
  Clock.timer e <= 0 -> Clock.due current_time e = false.
Proof.
  intros H. unfold Clock.due.
  destruct (Z.ltb_spec 0 (Clock.timer e)); [lia | reflexivity].
Qed.

(** X3. An event whose timer is 0 (or below) is inactive: however often and
    at whatever clock readings the caller steps, its callback is never
    invoked and its entry stays as it is. *)
Theorem Clock_inactive_event_never_fires self event e times w :
  Clock.wf self ->
  dict_get event (Clock.events self) = Some e ->
  Clock.timer e <= 0 ->
  (event ∉ keys (Clock.invocations_over times self w))
  /\ dict_get event (Clock.events (Clock.run_steps times self w).1) = Some e.
Proof.
  intros Hwf Hget Hinactive. revert self w Hwf Hget.
  induction times as [|current_time later IH]; intros self w Hwf Hget; simpl.
  - split; [apply not_elem_of_nil | exact Hget].
  - pose proof (not_due_inactive current_time e Hinactive) as Hdue.
    assert (Hwf' : Clock.wf (Clock.make_step current_time self w).1.1).
    { unfold Clock.wf. now rewrite make_step_keys. }
    destruct (IH _ (Clock.make_step current_time self w).1.2 Hwf'
                (make_step_untouched _ _ w _ _ Hget Hdue)) as [Hnot Hsame].
    split; [|exact Hsame].
    unfold keys. rewrite map_app. apply not_elem_of_app. split; [|exact Hnot].
    now apply (not_due_not_invoked current_time self w event e).
Qed.

(** X4. [set] on a registered event keeps its callback and its place, stores
    the new delay and makes it due at now + delay for a positive delay and
    inactive (timer 0) otherwise; the other events are as before. *)
Theorem Clock_set_rearms self event e delay now :
  dict_get event (Clock.events self) = Some e ->
  exists self',
    Clock.set event delay now self = (self', inr tt)
    /\ dict_get event (Clock.events self')
       = Some (Clock.EventData (if 0 <? delay then now + delay else 0)
                               (Clock.function e) delay)
    /\ (forall other, other <> event ->
          dict_get other (Clock.events self') = dict_get other (Clock.events self))
    /\ keys (Clock.events self') = keys (Clock.events self).
Proof.
  intros Hget. rewrite (Clock_set_registered self event delay now e Hget).
  eexists. split; [reflexivity|]. simpl. split; [|split].
  - apply dict_get_set_eq.
  - intros other Hne. apply dict_get_set_ne. congruence.
  - apply keys_dict_set_present. eapply dict_get_Some_elem. exact Hget.
Qed.

Lemma run_events_stepped current_time evs w (results : dict R) :
  Forall2 (Clock.stepped current_time) evs
          (Clock.run_events current_time evs w results).1.1.
Proof.
  assert (Hsame : forall l : dict (Clock.event_data W R),
             Forall2 (Clock.stepped current_time) l l).
  { induction l; constructor; [|assumption]. unfold Clock.stepped. tauto. }
  revert w results. induction evs as [|[id e] evs IH]; intros w results; simpl;
    [constructor|].
  fold (Clock.due current_time e).
  destruct (Clock.due current_time e) eqn:Hdue.
  - destruct (Clock.function e w) as [w1 [ex|r]]; simpl; [apply Hsame|].
    specialize (IH w1 (dict_set id r results)).
    destruct (Clock.run_events _ evs w1 _) as [[evs' w2] out]. simpl in *.
    constructor; [|exact IH]. unfold Clock.stepped. simpl. tauto.
  - specialize (IH w results).
    destruct (Clock.run_events _ evs w _) as [[evs' w2] out]. simpl in *.
    constructor; [|exact IH]. unfold Clock.stepped. tauto.
Qed.

Lemma Clock_make_step_frame_aux current_time self w :
  Forall2 (Clock.stepped current_time) (Clock.events self)
          (Clock.events (Clock.make_step current_time self w).1.1)
  /\ keys (Clock.events (Clock.make_step current_time self w).1.1)
     = keys (Clock.events self).
Proof.
  split; [|apply make_step_keys]. unfold Clock.make_step.
  pose proof (run_events_stepped current_time (Clock.events self) w []) as H.
  now destruct (Clock.run_events _ (Clock.events self) w _) as [[evs' w2] out].
Qed.

(** X5. Whatever a step does, returning or raising, it registers and
    removes nothing and keeps the order, the callback and the delay of every
    event; a timer either stays or, for an event that was due, becomes
    current time + delay. *)
Theorem Clock_make_step_frame self w current_time :
  Forall2 (Clock.stepped current_time) (Clock.events self)
          (Clock.events (Clock.make_step current_time self w).1.1)
  /\ keys (Clock.events (Clock.make_step current_time self w).1.1)
     = keys (Clock.events self).
Proof. apply Clock_make_step_frame_aux. Qed.

Ltac rewrite_log_prefix :=
  match goal with
  | |- context [Clock.run_events ?t (map Clock.instrument_event ?evs) ?p ?res] =>
      rewrite (run_events_log_prefix t evs (fst p) (snd p) res
               : Clock.run_events t (map Clock.instrument_event evs) p res = _);
      cbn [fst snd]
  end.

Lemma run_events_raises current_time evs w (results : dict R) ex :
  (Clock.run_events current_time evs w results).2 = inl ex ->
  exists before id e after (returned : dict R),
    evs = before ++ (id, e) :: after
    /\ Clock.due current_time e = true
    /\ (Clock.run_events current_time evs w results).1.1
       = map (fun p => (p.1, Clock.reschedule current_time p.2)) before
         ++ (id, e) :: after
    /\ (Clock.run_events current_time (instr' evs) (w, []) results).1.2.2
       = map (fun p => (p.1, inr p.2)) returned ++ [(id, inl ex)]
    /\ keys returned = keys (Clock.due_events current_time before).
Proof.
  revert w results. induction evs as [|[id e] evs IH]; intros w results; simpl;
    [discriminate|].
  unfold Clock.reschedule. fold (Clock.due current_time e).
  destruct (Clock.due current_time e) eqn:Hdue.
  - unfold Clock.logged; simpl.
    destruct (Clock.function e w) as [w1 [ex0|r]]; simpl.
    + intros [= ->]. now exists [], id, e, evs, [].
    + rewrite_log_prefix.
      specialize (IH w1 (dict_set id r results)).
      destruct (Clock.run_events _ (instr' evs) (w1, []) _) as [[evs' [w2 l2]] out].
      destruct (Clock.run_events _ evs w1 _) as [[evs0 w0] out0].
      simpl in *. intros ->.
      destruct (IH eq_refl)
        as (before & id' & e' & after & returned & -> & Hd & -> & -> & Hkeys).
      exists ((id, e) :: before), id', e', after, ((id, r) :: returned). simpl.
      unfold Clock.reschedule. rewrite Hdue. simpl. rewrite Hkeys.
      now repeat split.
  - specialize (IH w results).
    destruct (Clock.run_events _ (instr' evs) (w, []) _) as [[evs' [w2 l2]] out].
    destruct (Clock.run_events _ evs w _) as [[evs0 w0] out0].
    simpl in *. intros ->.
    destruct (IH eq_refl)
      as (before & id' & e' & after & returned & -> & Hd & -> & -> & Hkeys).
    exists ((id, e) :: before), id', e', after, returned. simpl.
    unfold Clock.reschedule. rewrite Hdue. now repeat split.
Qed.

(** X6. When a callback raises, the step ends with that exception: the
    callbacks of the due events registered before the raising one have been
    invoked, once each and in registration order, and have returned, and
    these events have their timer set to current time + delay; the raising
    call is the last invocation of the step; the raising event and every
    event after it are left as they were, so the raising event is still
    due. *)
Theorem Clock_make_step_raise_leaves_event_due self w current_time self' w' ex :
  Clock.make_step current_time self w = (self', w', inl ex) ->
  exists before id e after (returned : dict R),
    Clock.events self = before ++ (id, e) :: after
    /\ 0 < Clock.timer e < current_time
    /\ Clock.invocations current_time self w
       = map (fun p => (p.1, inr p.2)) returned ++ [(id, inl ex)]
    /\ keys returned = keys (Clock.due_events current_time before)
    /\ Clock.events self'
       = map (fun p =>
                (p.1,
                 if (0 <? Clock.timer p.2) && (Clock.timer p.2 <? current_time)
                 then Clock.EventData (current_time + Clock.delay p.2)
                                      (Clock.function p.2) (Clock.delay p.2)
                 else p.2))
             before
         ++ (id, e) :: after
    /\ id ∈ Clock.due_ids current_time self'.
Proof.
  intros Hstep.
  pose proof (run_events_raises current_time (Clock.events self) w [] ex) as H.
  unfold Clock.invocations, Clock.make_step, Clock.instrument, Clock.due_ids in *.
  simpl in *.
  destruct (Clock.run_events _ (instr' (Clock.events self)) (w, []) _)
    as [[evs' [w2 l2]] out].
  destruct (Clock.run_events _ (Clock.events self) w _) as [[evs0 w0] out0].
  simpl in *. injection Hstep as <- <- ->.
  destruct (H eq_refl)
    as (before & id & e & after & returned & Hevs & Hdue & -> & Hlog & Hkeys).
  exists before, id, e, after, returned.
  split; [exact Hevs|]. split.
  { unfold Clock.due in Hdue. apply andb_true_iff in Hdue as [H1 H2].
    split; now apply Z.ltb_lt. }
  split; [exact Hlog|]. split; [exact Hkeys|]. split.
  - f_equal; try (apply map_ext; intros [k ek]; simpl;
                  now rewrite reschedule_explicit).
  - simpl. unfold Clock.due_events, keys. rewrite List.filter_app, map_app. simpl.
    rewrite Hdue. simpl. apply elem_of_app. right. apply elem_of_cons. now left.
Qed.

Lemma run_events_returns_events current_time evs w (results results' : dict R) :
  (Clock.run_events current_time evs w results).2 = inr results' ->
  (Clock.run_events current_time evs w results).1.1
  = map (fun p => (p.1, Clock.reschedule current_time p.2)) evs.
Proof.
  revert w results. induction evs as [|[id e] evs IH]; intros w results; simpl;
    [reflexivity|].
  unfold Clock.reschedule. fold (Clock.due current_time e).
  destruct (Clock.due current_time e).
  - destruct (Clock.function e w) as [w1 [ex|r]]; simpl; [discriminate|].
    specialize (IH w1 (dict_set id r results)).
    destruct (Clock.run_events _ evs w1 _) as [[evs' w2] out]. simpl in *.
    intros Hout. now rewrite (IH Hout).
  - specialize (IH w results).
    destruct (Clock.run_events _ evs w _) as [[evs' w2] out]. simpl in *.
    intros Hout. now rewrite (IH Hout).
Qed.

Lemma run_events_none_due current_time evs w (results : dict R) :
  Forall (fun p => Clock.due current_time p.2 = false) evs ->
  Clock.run_events current_time evs w results = (evs, w, inr results).
Proof.
  induction 1 as [|[id e] evs Hhd _ IH]; simpl; [reflexivity|].
  simpl in Hhd. fold (Clock.due current_time e). now rewrite Hhd, IH.
Qed.

Lemma none_due_no_due_events current_time (evs : dict (Clock.event_data W R)) :
  Forall (fun p => Clock.due current_time p.2 = false) evs ->
  Clock.due_events current_time evs = [].
Proof.
  induction 1 as [|[id e] evs Hhd _ IH]; simpl; [reflexivity|].
  simpl in Hhd. now rewrite Hhd.
Qed.

Lemma rescheduled_not_due current_time earlier e :
  (0 < Clock.timer e -> 0 < Clock.delay e) -> earlier <= current_time ->
  Clock.due earlier (Clock.reschedule current_time e) = false.
Proof.
  intros Harmed Hle. unfold Clock.reschedule.
  destruct (Clock.due current_time e) eqn:Hdue.
  - apply andb_true_iff in Hdue as [Hpos%Z.ltb_lt _].
    apply not_due_before_timer. simpl. specialize (Harmed Hpos). lia.
  - unfold Clock.due in *. apply andb_false_iff in Hdue as [H|H].
    + now rewrite H.
    + apply Z.ltb_ge in H. apply andb_false_iff. right. apply Z.ltb_ge. lia.
Qed.

(** X7. When every event that can fire has a positive delay, a step that
    returns leaves no event due at its own clock reading: a further step at
    that reading, or at an earlier one, invokes nothing, returns the empty
    result and changes nothing. *)
Theorem Clock_make_step_again_fires_nothing
        self w current_time self' w' results earlier w2 :
  Clock.armed self ->
  Clock.make_step current_time self w = (self', w', inr results) ->
  earlier <= current_time ->
  Clock.make_step earlier self' w2 = (self', w2, inr [])
  /\ Clock.invocations earlier self' w2 = []
  /\ Clock.due_ids earlier self' = [].
Proof.
  intros Harmed Hstep Hle.
  assert (Hnone : Forall (fun p => Clock.due earlier p.2 = false)
                         (Clock.events self')).
  { unfold Clock.make_step in Hstep.
    pose proof (run_events_returns_events current_time (Clock.events self) w []
                  results) as Hev.
    destruct (Clock.run_events _ (Clock.events self) w _) as [[evs0 w0] out0].
    simpl in *. injection Hstep as <- <- ->. simpl. rewrite (Hev eq_refl).
    apply Forall_fmap. unfold Clock.armed in Harmed.
    eapply Forall_impl; [exact Harmed|].
    intros [id e] He. simpl in *. now apply rescheduled_not_due. }
  assert (Hids : Clock.due_ids earlier self' = []).
  { unfold Clock.due_ids. now rewrite none_due_no_due_events. }
  split; [|split; [|exact Hids]].
  - unfold Clock.make_step. rewrite run_events_none_due by assumption.
    now rewrite Clock_eta.
  - destruct (invocations_due earlier self' w2) as [rest Hrest].
    rewrite Hids in Hrest. symmetry in Hrest.
    apply app_eq_nil in Hrest as [Hk _].
    now apply fmap_nil_inv in Hk.
Qed.

Lemma Forall_dict_set {V} (P : Z * V -> Prop) (d : dict V) k v :
  Forall P d -> P (k, v) -> Forall P (dict_set k v d).
Proof.
  intros Hd Hv. induction Hd as [|[k0 v0] d Hhd Htl IH]; simpl.
  - now constructor.
  - destruct (k0 =? k); constructor; assumption.
Qed.

Lemma Forall_dict_pop {V} (P : Z * V -> Prop) (d : dict V) k :
  Forall P d -> Forall P (dict_pop k d).
Proof.
  induction 1 as [|[k0 v0] d Hhd Hd IH]; simpl; [constructor|].
  destruct (k0 =? k); [assumption | now constructor].
Qed.

Lemma armed_calculated (cb : Clock.callback W R) delay now :
  0 < Clock.timer (@Clock.EventData W R
                     (Clock._calculate_next_execution_time now delay) cb delay) ->
  0 < delay.
Proof.
  simpl. unfold Clock._calculate_next_execution_time.
  destruct (Z.ltb_spec 0 delay); lia.
Qed.

Lemma armed_make_step current_time self w :
  Clock.armed self -> Clock.armed (Clock.make_step current_time self w).1.1.
Proof.
  unfold Clock.armed. intros Harmed.
  destruct (Clock_make_step_frame_aux current_time self w) as [Hstepped _].
  revert Harmed. induction Hstepped as [|p p' l l' Hp _ IH]; intros Harmed;
    [constructor|].
  apply Forall_cons in Harmed as [Hhd Htl]. constructor; [|now apply IH].
  destruct Hp as (_ & _ & Hdelay & [Htimer | [Hdue _]]); rewrite Hdelay.
  - now rewrite Htimer.
  - intros _. apply Hhd. now apply andb_true_iff in Hdue as [?%Z.ltb_lt _].
Qed.

(** X8. The operations of the clock keep its events well formed: after
    [add], [set], [remove] and any number of steps no event id is registered
    twice and every event that can fire has a positive delay. *)
Theorem Clock_operations_keep_invariants self :
  Clock.wf self -> Clock.armed self ->
  (forall event cb delay now,
     Clock.wf (Clock.add event cb delay now self)
     /\ Clock.armed (Clock.add event cb delay now self))
  /\ (forall event delay now,
        Clock.wf (Clock.set event delay now self).1
        /\ Clock.armed (Clock.set event delay now self).1)
  /\ (forall event,
        Clock.wf (Clock.remove event self)
        /\ Clock.armed (Clock.remove event self))
  /\ (forall times w,
        Clock.wf (Clock.run_steps times self w).1
        /\ Clock.armed (Clock.run_steps times self w).1).
Proof.
  intros Hwf Harmed. split; [|split; [|split]].
  - intros event cb delay now. split; [now apply Clock_wf_add|].
    unfold Clock.armed, Clock.add. simpl.
    apply Forall_dict_set; [exact Harmed|]. apply armed_calculated.
  - intros event delay now.
    destruct (dict_get event (Clock.events self)) as [e|] eqn:Hget.
    + rewrite (Clock_set_registered self event delay now e Hget). simpl. split.
      * unfold Clock.wf. simpl. now apply keys_dict_set_NoDup.
      * unfold Clock.armed. simpl.
        apply Forall_dict_set; [exact Harmed|]. apply armed_calculated.
    + apply dict_get_None in Hget.
      unfold Clock.set, Clock.update_event.
      apply dict_get_None in Hget. rewrite Hget. now split.
  - intros event. split.
    + unfold Clock.wf, Clock.remove. simpl. now apply keys_dict_pop_NoDup.
    + unfold Clock.armed, Clock.remove. simpl. now apply Forall_dict_pop.
  - intros times. revert self Hwf Harmed.
    induction times as [|current_time later IH]; intros self Hwf Harmed w; simpl;
      [now split|].
    apply IH.
    + unfold Clock.wf. now rewrite make_step_keys.
    + now apply armed_make_step.
Qed.
End ClockMore.


(** * Further properties of the monitor *)

Section AuroraMore.
Import Aurora.
Implicit Types (net : network) (self : t) (th : thresholds) (var : level_var).

(** X9. For a time of day in the ranges [datetime.time] accepts,
    [is_daytime] holds exactly from 06:00:00 to 19:00:00, both ends included:
    19:00:00.000000 is day, anything later in that hour is night. *)
Theorem Aurora_is_daytime_window (current_time : datetime.time) :
  datetime.valid current_time ->
  is_daytime current_time = true
  <-> 6 <= datetime.hour current_time
      /\ (datetime.hour current_time < 19
          \/ (datetime.hour current_time = 19
              /\ datetime.minute current_time = 0
              /\ datetime.second current_time = 0
              /\ datetime.microsecond current_time = 0)).
Proof.
  destruct current_time as [h m sec us]. unfold datetime.valid.
  cbv [is_daytime datetime.leb datetime.seconds_key datetime.lex_leb START_DAY
       END_DAY datetime.hour datetime.minute datetime.second
       datetime.microsecond].
  intros (Hh & Hm & Hs & Hus). rewrite !andb_true_r.
  repeat (rewrite andb_true_iff || rewrite orb_true_iff
          || rewrite Z.ltb_lt || rewrite Z.eqb_eq).
  lia.
Qed.

Lemma table_messages_truthy language th :
  AURORA_LEVELS !! language = Some th \/ K_INDEX_LEVELS !! language = Some th ->
  Forall (fun entry => truthy entry.2 = true) th.
Proof.
  intros [H|H];
    [apply AURORA_LEVELS_lookup in H | apply K_INDEX_LEVELS_lookup in H];
    destruct H as [-> | ->]; repeat constructor.
Qed.

Lemma scan_message_truthy language th v var self message :
  AURORA_LEVELS !! language = Some th \/ K_INDEX_LEVELS !! language = Some th ->
  (_get_message_from_levels v th var self).2 = Some message ->
  truthy message = true.
Proof.
  intros Hth Hm.
  destruct (get_message_level v th var self message Hm) as (level & Hin & _).
  pose proof (table_messages_truthy language th Hth) as Hall.
  rewrite Forall_forall in Hall. exact (Hall _ Hin).
Qed.

Lemma truthy_String s : truthy s = true -> exists c s', s = String c s'.
Proof. destruct s as [|c s']; [discriminate | now exists c, s']. Qed.

(** X10. [check] posts at most one notification, and posts one exactly when
    the combined message is not empty: a check that returns the empty string
    has posted nothing and left [last_send_time] alone, a check that returns
    a message has posted that message once and set [last_send_time] to the
    clock; a check that raises has either posted nothing or posted the
    message the push service then refused, and [last_send_time] is as
    before. *)
Theorem Aurora_check_posts_iff_message net self :
  (forall message,
     outcome (check net self) = inr message ->
     posted (check net self) = (if truthy message then [message] else [])
     /\ last_send_time (after (check net self))
        = (if truthy message then clock_now net else last_send_time self))
  /\ (forall e,
        outcome (check net self) = inl e ->
        (posted (check net self) = []
         \/ exists message,
              posted (check net self) = [message] /\ truthy message = true
              /\ ok (push_sink net) = false
              /\ e = ConnectionError PUSH_URL (status_code (push_sink net))
                                     (content (push_sink net)))
        /\ last_send_time (after (check net self)) = last_send_time self).
Proof.
  rewrite check_unfold.
  destruct (aurora_reading net self) as [e0|[v th]];
    [split; [discriminate | intros e _; split; [now left | reflexivity]]|].
  cbv zeta.
  destruct (get_message_state v th last_aurora_level_var self) as (la & -> & _).
  destruct (k_index_reading net _) as [e0|[kv kth]];
    [split; [discriminate | intros e _; split; [now left | reflexivity]]|].
  destruct (get_message_state kv kth last_k_level_var
              (setattr self last_aurora_level_var la)) as (lk & -> & _).
  destruct (truthy _) eqn:Htruthy.
  - destruct (ok (push_sink net)) eqn:Hok; cbn [outcome posted after]; split.
    + intros message Hm.
      assert (truthy message = true) as -> by congruence.
      split; [congruence | reflexivity].
    + discriminate.
    + discriminate.
    + intros e He. split; [right | reflexivity].
      eexists. repeat split; [exact Htruthy | congruence].
  - cbn [outcome posted after]. split; [|discriminate].
    intros message Hm.
    assert (truthy message = false) as -> by congruence.
    split; reflexivity.
Qed.

(** X11. The message [check] returns is made of what the two evaluations
    returned, the aurora line first: both lines joined by a newline when both
    metrics crossed a threshold, the one line when one did, the empty string
    when none did. *)
Theorem Aurora_check_message_composition net self message :
  outcome (check net self) = inr message ->
  exists aurora_result k_index_result,
    outcome (_evaluate_aurora_level net self) = inr aurora_result
    /\ outcome (_evaluate_k_index_level net
                  (after (_evaluate_aurora_level net self)))
       = inr k_index_result
    /\ message = match aurora_result, k_index_result with
                 | Some a, Some k => a +:+ newline +:+ k
                 | Some a, None => a
                 | None, Some k => k
                 | None, None => ""
                 end.
Proof.
  rewrite check_unfold, evaluate_aurora_unfold.
  destruct (aurora_reading net self) as [e0|[v th]] eqn:Ea; [discriminate|].
  cbv zeta. cbn [after outcome]. rewrite evaluate_k_index_unfold.
  destruct (k_index_reading net _) as [e0|[kv kth]] eqn:Ek; [discriminate|].
  cbv zeta. cbn [after outcome].
  pose proof (fun m =>
                scan_message_truthy _ th v last_aurora_level_var self m
                  (or_introl (aurora_reading_table _ _ _ _ Ea))) as Ha.
  pose proof (fun m =>
                scan_message_truthy _ kth kv last_k_level_var
                  (_get_message_from_levels v th last_aurora_level_var self).1 m
                  (or_intror (k_index_reading_table _ _ _ _ Ek))) as Hk.
  intros Hout. eexists _, _. split; [reflexivity|]. split; [reflexivity|].
  assert (Hm : message
               = String.concat newline
                   (filter_none
                      [(_get_message_from_levels v th last_aurora_level_var self).2;
                       (_get_message_from_levels kv kth last_k_level_var
                          (_get_message_from_levels v th last_aurora_level_var
                             self).1).2])).
  { destruct (truthy _); [destruct (ok (push_sink net))|];
      cbn [outcome] in Hout; congruence. }
  rewrite Hm. clear Hm Hout.
  destruct ((_get_message_from_levels v th last_aurora_level_var self).2) as [a|];
    destruct ((_get_message_from_levels kv kth last_k_level_var _).2) as [k|];
    try (destruct (truthy_String a (Ha a eq_refl)) as (c & a' & ->));
    try (destruct (truthy_String k (Hk k eq_refl)) as (c' & k' & ->));
    reflexivity.
Qed.

(** X12. A feed that answers with a failure status makes [check] raise a
    [ConnectionError] carrying that status and body, and nothing is posted.
    When it is the aurora feed the object is unchanged and the K-index feed
    plays no part; when it is the K-index feed, or when that feed answers
    with an empty list of readings ([IndexError]), the object is left as the
    aurora evaluation left it. *)
Theorem Aurora_check_feed_failure net self :
  (ok (aurora_feed net) = false ->
   check net self
   = Run self []
         (inl (ConnectionError AURORA_URL (status_code (aurora_feed net))
                               (content (aurora_feed net)))))
  /\ (forall aurora_result,
        outcome (_evaluate_aurora_level net self) = inr aurora_result ->
        (ok (k_index_feed net) = false ->
         check net self
         = Run (after (_evaluate_aurora_level net self)) []
               (inl (ConnectionError K_INDEX_URL (status_code (k_index_feed net))
                                     (content (k_index_feed net)))))
        /\ (ok (k_index_feed net) = true -> json (k_index_feed net) = [] ->
            check net self
            = Run (after (_evaluate_aurora_level net self)) [] (inl IndexError))).
Proof.
  split.
  - intros Hok. rewrite check_unfold.
    unfold aurora_reading, _download_aurora_data. now rewrite Hok.
  - intros aurora_result. rewrite check_unfold, evaluate_aurora_unfold.
    destruct (aurora_reading net self) as [e0|[v th]]; [discriminate|].
    cbv zeta. cbn [after outcome]. intros _. split.
    + intros Hok. unfold k_index_reading, _download_k_index_data.
      now rewrite Hok.
    + intros Hok Hempty. unfold k_index_reading, _download_k_index_data.
      now rewrite Hok, Hempty.
Qed.

Lemma aurora_reading_feed net net' self :
  aurora_feed net' = aurora_feed net ->
  aurora_reading net' self = aurora_reading net self.
Proof. unfold aurora_reading. now intros ->. Qed.

Lemma k_index_reading_feed net net' self :
  k_index_feed net' = k_index_feed net ->
  k_index_reading net' self = k_index_reading net self.
Proof. unfold k_index_reading. now intros ->. Qed.

Lemma check_posted_same_feeds net net' self :
  aurora_feed net' = aurora_feed net -> k_index_feed net' = k_index_feed net ->
  posted (check net self) = [] -> posted (check net' self) = [].
Proof.
  intros Ha Hk. rewrite !check_unfold.
  rewrite (aurora_reading_feed net net') by assumption.
  destruct (aurora_reading net self) as [e0|[v th]]; [easy|].
  cbv zeta. rewrite (k_index_reading_feed net net') by assumption.
  destruct (k_index_reading net _) as [e0|[kv kth]]; [easy|].
  destruct (truthy _); [|easy].
  destruct (ok (push_sink net)); discriminate.
Qed.

(** X13. When the push service refuses the notification, [check] raises
    its [ConnectionError] after both levels have been stored:
    [last_send_time] is as before, and the next check that reads the same
    two feeds posts nothing, so the refused notification is not sent
    again. *)
Theorem Aurora_push_failure_not_resent net net' self :
  ok (push_sink net) = false ->
  posted (check net self) <> [] ->
  aurora_feed net' = aurora_feed net ->
  k_index_feed net' = k_index_feed net ->
  outcome (check net self)
  = inl (ConnectionError PUSH_URL (status_code (push_sink net))
                         (content (push_sink net)))
  /\ last_send_time (after (check net self)) = last_send_time self
  /\ posted (check net' (after (check net self))) = [].
Proof.
  intros Hok Hposted Ha Hk. split; [|split].
  - revert Hposted. rewrite check_unfold.
    destruct (aurora_reading net self) as [e0|[v th]]; [easy|].
    cbv zeta. destruct (k_index_reading net _) as [e0|[kv kth]]; [easy|].
    destruct (truthy _); [|easy]. now rewrite Hok.
  - revert Hposted. rewrite check_unfold.
    destruct (aurora_reading net self) as [e0|[v th]]; [easy|].
    cbv zeta.
    destruct (get_message_state v th last_aurora_level_var self) as (la & -> & _).
    destruct (k_index_reading net _) as [e0|[kv kth]]; [easy|].
    destruct (get_message_state kv kth last_k_level_var
                (setattr self last_aurora_level_var la)) as (lk & -> & _).
    destruct (truthy _); [|easy]. now rewrite Hok.
  - apply (check_posted_same_feeds net net'); [assumption..|].
    apply check_twice_posts_nothing.
Qed.

(** X14. A monitor configured with a language that has no message table
    never notifies and never stores a level: every [check] raises, with
    [KeyError] once the aurora feed has answered with coordinates, and leaves
    the object as it was. *)
Theorem Aurora_unsupported_language_never_notifies net self :
  AURORA_LEVELS !! language self = None ->
  after (check net self) = self
  /\ posted (check net self) = []
  /\ (exists e, outcome (check net self) = inl e)
  /\ (forall coordinates,
        ok (aurora_feed net) = true ->
        _process_aurora_data (json (aurora_feed net)) = inr coordinates ->
        outcome (check net self) = inl KeyError).
Proof.
  intros Hlang. rewrite check_unfold.
  unfold aurora_reading, getitem. rewrite Hlang.
  destruct (_download_aurora_data (aurora_feed net)) as [e|data] eqn:Ed.
  - repeat split; eauto. intros coordinates Hok _.
    unfold _download_aurora_data in Ed. now rewrite Hok in Ed.
  - destruct (_process_aurora_data data) as [e|coordinates0] eqn:Ep.
    + repeat split; eauto. intros coordinates Hok Hp.
      unfold _download_aurora_data in Ed. rewrite Hok in Ed.
      injection Ed as <-. congruence.
    + repeat split; eauto.
Qed.

Lemma replace_removes (old new : ascii) (text : string) :
  old <> new -> ~ In old (list_ascii_of_string (replace old new text)).
Proof.
  intros Hne. induction text as [|c text IH]; simpl; [tauto|].
  intros [Hc | Hin]; [|now apply IH].
  destruct (Ascii.eqb_spec c old); congruence.
Qed.

(** X15. Of a K-index answer only the last reading is used, whatever the
    readings before it hold: its [kp_index], or 0 when the key is missing,
    and its [time_tag], or the empty string, in which no ['T'] is left. *)
Theorem Aurora_k_index_uses_last_reading
        (response : response (list k_reading)) earlier latest :
  ok response = true ->
  json response = earlier ++ [latest] ->
  _download_k_index_data response
  = inr (replace "T" " " (default "" (time_tag latest)),
         default 0%Q (kp_index latest))
  /\ ~ In "T"%char
       (list_ascii_of_string (replace "T" " " (default "" (time_tag latest)))).
Proof.
  intros Hok Hjson. split.
  - unfold _download_k_index_data. now rewrite Hok, Hjson, last_snoc.
  - now apply replace_removes.
Qed.

Lemma coordinate_map_snoc triples lon lat aurora :
  coordinate_map (triples ++ [(lon, lat, aurora)])
  = <[(lon, lat) := aurora]> (coordinate_map triples).
Proof. unfold coordinate_map. now rewrite foldl_snoc. Qed.

Lemma coordinate_map_lookup triples (key : Z * Z) :
  is_Some (coordinate_map triples !! key)
  <-> exists aurora, (key.1, key.2, aurora) ∈ triples.
Proof.
  induction triples as [|[[lon lat] aurora] triples IH] using rev_ind.
  - change (coordinate_map []) with (∅ : gmap (Z * Z) Q).
    split; [intros [x Hx]; now rewrite lookup_empty in Hx|].
    intros [x Hx]. now apply elem_of_nil in Hx.
  - rewrite coordinate_map_snoc. destruct key as [klon klat]. simpl in *.
    destruct (decide ((lon, lat) = (klon, klat))) as [[= -> ->]|Hne].
    + rewrite lookup_insert_eq. split; [|eauto].
      intros _. exists aurora. apply elem_of_app. right. now apply elem_of_cons; left.
    + rewrite lookup_insert_ne by assumption. rewrite IH. split.
      * intros [x Hx]. exists x. apply elem_of_app. now left.
      * intros [x Hx]. apply elem_of_app in Hx as [Hx|Hx]; [eauto|].
        apply list_elem_of_singleton in Hx. congruence.
Qed.

(** X16. In the coordinate map a later triple of the feed replaces an
    earlier one with the same (longitude, latitude) and touches no other
    key; a key is in the map exactly when some triple of the feed carries
    it; and [_process_aurora_data] raises [ValueError] exactly when the list
    is empty. *)
Theorem Aurora_coordinate_map_last_wins triples lon lat aurora :
  coordinate_map (triples ++ [(lon, lat, aurora)]) !! (lon, lat) = Some aurora
  /\ (forall key, key <> (lon, lat) ->
        coordinate_map (triples ++ [(lon, lat, aurora)]) !! key
        = coordinate_map triples !! key)
  /\ (forall key : Z * Z,
        is_Some (coordinate_map triples !! key)
        <-> exists value, (key.1, key.2, value) ∈ triples)
  /\ (_process_aurora_data (AuroraJson (Some triples)) = inl ValueError
      <-> triples = [])
  /\ (triples <> [] ->
      _process_aurora_data (AuroraJson (Some triples))
      = inr (coordinate_map triples)).
Proof.
  rewrite coordinate_map_snoc.
  split; [apply lookup_insert_eq|]. split; [|split].
  - intros key Hne. now apply lookup_insert_ne.
  - apply coordinate_map_lookup.
  - assert (Hnonempty : triples <> [] -> coordinate_map triples <> ∅).
    { destruct triples as [|[[lon0 lat0] a0] triples]; [congruence|].
      intros _ Hempty.
      assert (Hin : is_Some (coordinate_map (((lon0, lat0), a0) :: triples)
                               !! (lon0, lat0))).
      { apply coordinate_map_lookup. exists a0. simpl. apply elem_of_cons. now left. }
      rewrite Hempty, lookup_empty in Hin. now destruct Hin. }
    unfold _process_aurora_data. simpl.
    destruct (decide (coordinate_map triples = ∅)) as [Hempty|Hfull]; split.
    + split; [intros _|reflexivity].
      destruct triples; [reflexivity|]. exfalso. now apply Hnonempty.
    + intros Hne. exfalso. now apply Hnonempty.
    + split; [discriminate|]. intros ->. now destruct Hfull.
    + reflexivity.
Qed.

(** X17. With a descending table a scan that emits a message stores the
    highest level the value has reached: every level of the table that is at
    most the value is at most the stored one, so the levels below it are
    skipped. *)
Theorem Aurora_scan_fires_highest_crossed_level v th var self message :
  descending th ->
  (_get_message_from_levels v th var self).2 = Some message ->
  exists level,
    (level, message) ∈ th
    /\ getattr (_get_message_from_levels v th var self).1 var = level
    /\ forall entry, entry ∈ th -> (inject_Z entry.1 <= v)%Q -> entry.1 <= level.
Proof.
  induction 1 as [|[level0 message0] th Hsorted IH Hbelow]; simpl; [discriminate|].
  destruct (crosses v (getattr self var) level0) eqn:E; simpl.
  - intros [= <-]. exists level0. split; [apply elem_of_cons; now left|].
    split; [apply getattr_setattr|].
    intros entry [->|Hin]%elem_of_cons _; simpl; [lia|].
    rewrite Forall_forall in Hbelow. specialize (Hbelow entry Hin).
    simpl in Hbelow. lia.
  - intros Hm. destruct (IH Hm) as (level & Hin & Hlevel & Hmax).
    exists level. split; [apply elem_of_cons; now right|]. split; [exact Hlevel|].
    intros entry [->|Hin']%elem_of_cons Hle; [|now apply Hmax]. simpl in *.
    destruct (get_message_level v th var self message Hm)
      as (level' & _ & [_ Hlt] & Hlevel').
    rewrite Hlevel in Hlevel'. subst level'. simpl in Hlt.
    unfold crosses in E. apply andb_false_iff in E as [E|E].
    + apply Qle_bool_iff in Hle. congruence.
    + apply Z.ltb_ge in E. lia.
Qed.

Lemma scan_state_cases v th var self :
  (_get_message_from_levels v th var self).1 = self
  \/ exists level message,
       (level, message) ∈ th
       /\ (_get_message_from_levels v th var self).1 = setattr self var level.
Proof.
  pose proof (get_message_first v th var self) as H.
  destruct (_get_message_from_levels v th var self) as [self' [m|]]; simpl.
  - destruct H as (before & level & after & -> & _ & _ & ->).
    right. exists level, m. split; [|reflexivity].
    apply elem_of_app. right. apply elem_of_cons. now left.
  - destruct H as [_ ->]. now left.
Qed.

Lemma known_levels_table (tables : gmap string thresholds) (language : string)
      th level message :
  tables !! language = Some th -> (level, message) ∈ th ->
  level ∈ known_levels tables language.
Proof.
  intros Hth Hin. unfold known_levels, thresholds in *. rewrite Hth. simpl.
  apply elem_of_cons. right. change level with (level, message).1.
  now apply list_elem_of_fmap_2.
Qed.

Lemma check_levels_known net self :
  levels_known self -> levels_known (after (check net self)).
Proof.
  intros [Ha Hk]. rewrite check_unfold.
  destruct (aurora_reading net self) as [e0|[v th]] eqn:Ea; [now split|].
  apply aurora_reading_table in Ea. cbv zeta.
  assert (Hsa : levels_known
                  (_get_message_from_levels v th last_aurora_level_var self).1).
  { destruct (scan_state_cases v th last_aurora_level_var self)
      as [-> | (la & ma & Hin & ->)]; [now split|].
    split; [|exact Hk]. simpl. now apply (known_levels_table _ _ th la ma). }
  destruct (k_index_reading net _) as [e0|[kv kth]] eqn:Ek; [exact Hsa|].
  apply k_index_reading_table in Ek.
  set (sa := (_get_message_from_levels v th last_aurora_level_var self).1) in *.
  assert (Hsk : levels_known
                  (_get_message_from_levels kv kth last_k_level_var sa).1).
  { destruct Hsa as [Ha' Hk'].
    destruct (scan_state_cases kv kth last_k_level_var sa)
      as [-> | (lk & mk & Hin & ->)]; [now split|].
    split; [exact Ha'|]. simpl. now apply (known_levels_table _ _ kth lk mk). }
  destruct (truthy _); [destruct (ok (push_sink net))|]; exact Hsk.
Qed.

Lemma run_actions_levels_known actions self :
  levels_known self -> levels_known (run_actions actions self).
Proof.
  revert self. induction actions as [|a actions IH]; intros self Hself;
    [exact Hself|].
  unfold run_actions. simpl. apply IH. destruct a as [net|]; simpl.
  - now apply check_levels_known.
  - split; apply elem_of_cons; now left.
Qed.

Lemma run_actions_language actions self :
  language (run_actions actions self) = language self.
Proof.
  revert self. induction actions as [|a actions IH]; intros self; [reflexivity|].
  unfold run_actions. simpl. fold (run_actions actions (perform self a)).
  rewrite IH. destruct a as [net|]; simpl; [apply check_config | reflexivity].
Qed.

(** X18. Whatever checks and resets a monitor goes through after its
    creation, each stored level is 0 or a level of the table of the
    configured language for that metric; with a language that has no table it
    stays 0. *)
Theorem Aurora_stored_levels_are_table_levels
        api_key user_key latitude longitude language actions :
  let self := run_actions actions
                (__init__ api_key user_key latitude longitude language) in
  last_aurora_level self ∈ known_levels AURORA_LEVELS language
  /\ last_k_level self ∈ known_levels K_INDEX_LEVELS language
  /\ (AURORA_LEVELS !! language = None -> last_aurora_level self = 0)
  /\ (K_INDEX_LEVELS !! language = None -> last_k_level self = 0).
Proof.
  intros self.
  pose proof (run_actions_language actions
                (__init__ api_key user_key latitude longitude language)) as Hlang.
  fold self in Hlang. simpl in Hlang.
  destruct (run_actions_levels_known actions
              (__init__ api_key user_key latitude longitude language))
    as [Ha Hk]; [split; apply elem_of_cons; now left|].
  fold self in Ha, Hk. rewrite Hlang in Ha, Hk.
  split; [exact Ha|]. split; [exact Hk|]. split; intros Hnone.
  - unfold known_levels, thresholds in *. rewrite Hnone in Ha. simpl in Ha.
    now apply list_elem_of_singleton in Ha.
  - unfold known_levels, thresholds in *. rewrite Hnone in Hk. simpl in Hk.
    now apply list_elem_of_singleton in Hk.
Qed.

Lemma scan_all_levels values th var self message :
  message ∈ scan_all values th var self ->
  exists level, (level, message) ∈ th /\ getattr self var < level.
Proof.
  revert self. induction values as [|v later IH]; intros self; simpl.
  - intros H. now apply elem_of_nil in H.
  - pose proof (get_message_monotone v th var self) as Hmono.
    destruct ((_get_message_from_levels v th var self).2) as [m|] eqn:Hm.
    + intros [->|Hin]%elem_of_cons.
      * destruct (get_message_level v th var self m Hm)
          as (level & Hin & [_ Hlt] & _).
        exists level. split; [exact Hin | exact Hlt].
      * destruct (IH _ Hin) as (level & Hth & Hlt). exists level.
        split; [exact Hth | lia].
    + intros Hin. destruct (IH _ Hin) as (level & Hth & Hlt). exists level.
      split; [exact Hth | lia].
Qed.

(** X19. Between resets a metric notifies each level at most once: when the
    messages of a table are distinct, the messages emitted by any sequence of
    scans are distinct messages of the table, so there are never more of them
    than the table has entries. *)
Theorem Aurora_scans_emit_each_message_once values th var self :
  NoDup th.*2 ->
  NoDup (scan_all values th var self)
  /\ (forall message, message ∈ scan_all values th var self -> message ∈ th.*2)
  /\ (length (scan_all values th var self) <= length th)%nat.
Proof.
  intros Hdistinct.
  assert (Hin : forall message,
             message ∈ scan_all values th var self -> message ∈ th.*2).
  { intros message Hm.
    destruct (scan_all_levels values th var self message Hm) as (level & Hth & _).
    change message with (level, message).2. now apply list_elem_of_fmap_2. }
  assert (Hnd : NoDup (scan_all values th var self)).
  { clear Hin. revert self. induction values as [|v later IH]; intros self; simpl;
      [apply NoDup_nil_2|].
    destruct ((_get_message_from_levels v th var self).2) as [m|] eqn:Hm;
      [|apply IH].
    apply NoDup_cons. split; [|apply IH].
    intros Hagain.
    destruct (scan_all_levels later th var _ m Hagain) as (level' & Hth' & Hlt').
    destruct (get_message_level v th var self m Hm) as (level & Hth & _ & Hlevel).
    pose proof (messages_distinct th level level' m Hdistinct Hth Hth'). lia. }
  split; [exact Hnd|]. split; [exact Hin|].
  rewrite <- (length_fmap snd th).
  apply submseteq_length, NoDup_submseteq; assumption.
Qed.

(** X20. [update_daytime_delay] settles in one call: after a call whose two
    reads of the wall clock agree on day or night, a further call that reads
    the same day or night changes nothing and raises nothing.  This is so
    even when the first call raised: with no reset event registered it
    raises [KeyError] after [is_day] has been set, and leaves the clock as it
    was. *)
Theorem Aurora_update_daytime_delay_settles {W R : Type}
        (time_1 time_2 time_3 time_4 : datetime.time) (now now' : Z) self
        (clock : Clock.t W R) :
  (is_daytime time_1 = is_daytime time_2 ->
   is_daytime time_3 = is_daytime time_2 ->
   let first := update_daytime_delay time_1 time_2 now self clock in
   update_daytime_delay time_3 time_4 now' first.1.1 first.1.2
   = (first.1.1, first.1.2, inr tt))
  /\ (RESET_EVENT ∉ keys (Clock.events clock) ->
      is_daytime time_1 <> is_day self ->
      update_daytime_delay time_1 time_2 now self clock
      = (set_is_day self (is_daytime time_2), clock, inl KeyError)).
Proof.
  split.
  - intros H12 H32. unfold update_daytime_delay.
    destruct (Bool.eqb (is_daytime time_1) (is_day self)) eqn:E; simpl.
    + rewrite H32, <- H12. now rewrite E.
    + destruct (Clock.set RESET_EVENT _ now clock) as [clock1 out]. simpl.
      now rewrite H32, eqb_reflx.
  - intros Habsent Hne. unfold update_daytime_delay.
    destruct (Bool.eqb (is_daytime time_1) (is_day self)) eqn:E;
      [now apply eqb_prop in E|].
    simpl. unfold Clock.set, Clock.update_event.
    apply dict_get_None in Habsent. now rewrite Habsent.
Qed.

Lemma Qmax_cases (x y : Q) : Qmax x y = x \/ Qmax x y = y.
Proof.
  unfold Qmax, GenericMinMax.gmax. destruct (x ?= y)%Q; auto.
Qed.

(** X21. The value computed for the diagnostic line is a maximum of the
    coordinate map: it exists exactly when the map is not empty, it is one of
    the intensities of the map and no intensity of the map is above it. *)
Theorem Aurora_max_values_is_maximum (coordinates : gmap (Z * Z) Q) :
  (max_values coordinates = None <-> coordinates = ∅)
  /\ forall highest,
       max_values coordinates = Some highest ->
       (exists key, coordinates !! key = Some highest)
       /\ forall key value,
            coordinates !! key = Some value -> (value <= highest)%Q.
Proof.
  unfold max_values.
  apply (map_fold_weak_ind
           (fun acc (m : gmap (Z * Z) Q) =>
              (acc = None <-> m = ∅)
              /\ forall highest,
                   acc = Some highest ->
                   (exists key, m !! key = Some highest)
                   /\ forall key value,
                        m !! key = Some value -> (value <= highest)%Q)).
  - split; [easy | discriminate].
  - intros i x m acc Hfresh [Hnone Hsome]. split.
    + split; [discriminate|]. intros Hempty.
      apply (f_equal (fun m' => m' !! i)) in Hempty.
      now rewrite lookup_insert_eq, lookup_empty in Hempty.
    + intros highest [= <-]. destruct acc as [a|]; simpl.
      * destruct (Hsome a eq_refl) as [[ka Hka] Hbound]. split.
        -- destruct (Qmax_cases x a) as [-> | ->].
           ++ exists i. apply lookup_insert_eq.
           ++ exists ka. rewrite lookup_insert_ne; [exact Hka|].
              intros <-. congruence.
        -- intros key value Hkey.
           destruct (decide (i = key)) as [<-|Hne].
           ++ rewrite lookup_insert_eq in Hkey. injection Hkey as <-.
              apply Q.le_max_l.
           ++ rewrite lookup_insert_ne in Hkey by assumption.
              eapply Qle_trans; [now apply (Hbound key)|]. apply Q.le_max_r.
      * assert (Hm : m = ∅) by now apply Hnone. subst m. split.
        -- exists i. apply lookup_insert_eq.
        -- intros key value Hkey.
           destruct (decide (i = key)) as [<-|Hne].
           ++ rewrite lookup_insert_eq in Hkey. injection Hkey as <-.
              apply Qle_refl.
           ++ rewrite lookup_insert_ne, lookup_empty in Hkey by assumption.
              discriminate.
Qed.
End AuroraMore.


(** * The loop *)

Section StepFrame.
Context {W R : Type}.
Implicit Types (self : Clock.t W R) (w : W).

Lemma run_events_preserves (Q : W -> Prop) current_time evs w (results : dict R) :
  Forall (fun p => forall w, Q w -> Q (Clock.function p.2 w).1) evs ->
  Q w -> Q (Clock.run_events current_time evs w results).1.2.
Proof.
  intros Hcallbacks. revert w results.
  induction Hcallbacks as [|[id e] evs Hhd _ IH]; intros w results Hw; simpl;
    [exact Hw|].
  destruct ((0 <? Clock.timer e) && (Clock.timer e <? current_time)).
  - specialize (Hhd w Hw). simpl in Hhd.
    destruct (Clock.function e w) as [w1 [ex|r]]; simpl in *; [exact Hhd|].
    specialize (IH w1 (dict_set id r results) Hhd).
    now destruct (Clock.run_events _ evs w1 _) as [[evs' w2] out].
  - specialize (IH w results Hw).
    now destruct (Clock.run_events _ evs w _) as [[evs' w2] out].
Qed.

Lemma make_step_preserves (Q : W -> Prop) current_time self w :
  Forall (fun p => forall w, Q w -> Q (Clock.function p.2 w).1) (Clock.events self) ->
  Q w -> Q (Clock.make_step current_time self w).1.2.
Proof.
  intros Hcallbacks Hw. unfold Clock.make_step.
  pose proof (run_events_preserves Q current_time _ w [] Hcallbacks Hw) as H.
  now destruct (Clock.run_events _ (Clock.events self) w _) as [[evs' w2] out].
Qed.

Lemma make_step_callbacks (P : Clock.callback W R -> Prop) current_time self w :
  Forall (fun p => P (Clock.function p.2)) (Clock.events self) ->
  Forall (fun p => P (Clock.function p.2))
         (Clock.events (Clock.make_step current_time self w).1.1).
Proof.
  destruct (Clock_make_step_frame_aux current_time self w) as [Hstepped _].
  induction Hstepped as [|p p' l l' Hp _ IH]; intros Hall; [constructor|].
  apply Forall_cons in Hall as [Hhd Htl]. constructor; [|now apply IH].
  destruct Hp as (_ & -> & _). exact Hhd.
Qed.

Lemma run_events_calls current_time evs w (results : dict R) :
  (Clock.run_events current_time evs w results).1.2
  = (Clock.call_in_order (Clock.due_events current_time evs) w).1
  /\ (forall ex,
        (Clock.run_events current_time evs w results).2 = inl ex
        <-> (Clock.call_in_order (Clock.due_events current_time evs) w).2 = inl ex)
  /\ (NoDup (keys evs) -> (forall k, k ∈ keys evs -> k ∉ keys results) ->
      (Clock.run_events current_time evs w results).2
      = match (Clock.call_in_order (Clock.due_events current_time evs) w).2 with
        | inl ex => inl ex
        | inr returned => inr (results ++ returned)
        end).
Proof.
  revert w results. induction evs as [|[id e] evs IH]; intros w results; simpl.
  - split; [reflexivity|]. split; [easy|]. intros _ _. now rewrite app_nil_r.
  - fold (Clock.due current_time e).
    destruct (Clock.due current_time e); simpl.
    + destruct (Clock.function e w) as [w1 [ex0|r]]; simpl; [easy|].
      specialize (IH w1 (dict_set id r results)).
      destruct (Clock.run_events _ evs w1 _) as [[evs' w2] out].
      destruct (Clock.call_in_order _ w1) as [w3 out3].
      simpl in *. destruct IH as (-> & Hraise & Hret).
      split; [now destruct out3|]. split.
      * intros ex. rewrite Hraise. now destruct out3.
      * intros [Hid Hnd]%NoDup_cons Hfresh.
        assert (Hset : dict_set id r results = results ++ [(id, r)]).
        { apply dict_set_fresh, Hfresh. apply elem_of_cons. now left. }
        rewrite Hret; [|assumption|].
        -- destruct out3 as [ex|returned]; [reflexivity|].
           now rewrite Hset, <- app_assoc.
        -- intros k Hk. rewrite Hset. unfold keys. rewrite map_app.
           apply not_elem_of_app. split.
           ++ apply Hfresh. apply elem_of_cons. now right.
           ++ simpl. intros Hin. apply list_elem_of_singleton in Hin. congruence.
    + specialize (IH w results).
      destruct (Clock.run_events _ evs w _) as [[evs' w2] out].
      simpl in *. destruct IH as (-> & Hraise & Hret).
      split; [reflexivity|]. split; [exact Hraise|].
      intros [Hid Hnd]%NoDup_cons Hfresh. apply Hret; [assumption|].
      intros k Hk. apply Hfresh. apply elem_of_cons. now right.
Qed.

(** X22. A step does to the state of the callbacks exactly what calling the
    callbacks of the due events does, once each, in registration order, each
    on the state the one before left, and up to the first that raises; the
    callbacks of the other events are not called.  It raises what that call
    raises, and with distinct event ids it returns what these calls
    returned. *)
Theorem Clock_make_step_calls_due_in_order self w current_time :
  (Clock.make_step current_time self w).1.2
  = (Clock.call_in_order
       (List.filter
          (fun p => (0 <? Clock.timer p.2) && (Clock.timer p.2 <? current_time))
          (Clock.events self)) w).1
  /\ (forall ex,
        (Clock.make_step current_time self w).2 = inl ex
        <-> (Clock.call_in_order
               (List.filter
                  (fun p => (0 <? Clock.timer p.2)
                            && (Clock.timer p.2 <? current_time))
                  (Clock.events self)) w).2 = inl ex)
  /\ (Clock.wf self ->
      (Clock.make_step current_time self w).2
      = (Clock.call_in_order
           (List.filter
              (fun p => (0 <? Clock.timer p.2)
                        && (Clock.timer p.2 <? current_time))
              (Clock.events self)) w).2).
Proof.
  pose proof (run_events_calls current_time (Clock.events self) w [])
    as (Hw & Hraise & Hret).
  unfold Clock.make_step.
  destruct (Clock.run_events _ (Clock.events self) w _) as [[evs' w2] out].
  simpl in *. split; [exact Hw|]. split; [exact Hraise|].
  intros Hwf. rewrite Hret; [|exact Hwf|intros k _; apply not_elem_of_nil].
  now destruct (Clock.call_in_order _ w).2.
Qed.
End StepFrame.

Section Loop.
Import Aurora.
Variable net : nat -> network.

Lemma check_is_day (answers : network) self :
  is_day (after (check answers self)) = is_day self.
Proof.
  rewrite check_unfold.
  destruct (aurora_reading answers self) as [e0|[v th]]; [reflexivity|].
  cbv zeta.
  destruct (get_message_state v th last_aurora_level_var self) as (la & -> & _).
  destruct (k_index_reading answers _) as [e0|[kv kth]]; [reflexivity|].
  destruct (get_message_state kv kth last_k_level_var
              (setattr self last_aurora_level_var la)) as (lk & -> & _).
  destruct (truthy _); [destruct (ok (push_sink answers))|]; reflexivity.
Qed.

Lemma callbacks_keep_is_day (b : bool) (w : world) :
  is_day (self_ w) = b ->
  is_day (self_ (check_callback net w).1) = b
  /\ is_day (self_ (reset_callback w).1) = b.
Proof.
  intros <-. split; simpl; [apply check_is_day | reflexivity].
Qed.

Lemma policy_keeps_invariant (r : policy_reading) (p : process) :
  loop_invariant net p -> loop_invariant net (apply_daytime_policy r p).1.
Proof.
  destruct p as [[self n out] [evs]]. intros (tc & tr & Hev). simpl in Hev.
  subst evs. unfold apply_daytime_policy, update_daytime_delay. simpl.
  destruct (Bool.eqb (is_daytime (day_time_1 r)) (is_day self)); simpl.
  - now exists tc, tr.
  - unfold loop_invariant. simpl. eexists _, _. reflexivity.
Qed.

Lemma make_step_keeps_invariant current_time (p : process) :
  loop_invariant net p ->
  loop_invariant net
    (Process (Clock.make_step current_time (clock p) (monitor p)).1.2
             (Clock.make_step current_time (clock p) (monitor p)).1.1).
Proof.
  destruct p as [w clk]. intros (tc & tr & Hev). simpl in *.
  assert (Hday : is_day (self_ (Clock.make_step current_time clk w).1.2)
                 = is_day (self_ w)).
  { apply (make_step_preserves (fun w' => is_day (self_ w') = is_day (self_ w)));
      [|reflexivity].
    rewrite Hev. repeat constructor; simpl; intros w0 Hw0;
      now apply callbacks_keep_is_day. }
  destruct (Clock_make_step_frame_aux current_time clk w) as [Hstepped _].
  rewrite Hev in Hstepped.
  inversion Hstepped as [|p1 p1' l1 l1' H1 Hrest Heq1 Heq2]; subst.
  inversion Hrest as [|p2 p2' l2 l2' H2 Hnil Heq3 Heq4]; subst.
  inversion Hnil; subst.
  destruct p1' as [id1 [t1 f1 d1]], p2' as [id2 [t2 f2 d2]].
  destruct H1 as (Hid1 & Hf1 & Hd1 & _), H2 as (Hid2 & Hf2 & Hd2 & _).
  simpl in *. subst. unfold loop_invariant. simpl.
  match goal with H : _ = Clock.events _ |- _ => rewrite <- H end.
  rewrite Hday. now exists t1, t2.
Qed.

Lemma loop_iteration_keeps_invariant step_time r (p : process) :
  loop_invariant net p -> loop_invariant net (loop_iteration step_time r p).1.
Proof.
  intros Hp. pose proof (make_step_keeps_invariant step_time p Hp) as Hstep.
  unfold loop_iteration.
  destruct (Clock.make_step step_time (clock p) (monitor p)) as [[clock1 w1] out].
  simpl in Hstep. destruct out as [e|results]; [exact Hstep|].
  now apply policy_keeps_invariant.
Qed.

(** X23. Around the loop of [start_loop] the clock always holds exactly the
    check event, with delay 60, and the reset event, in this order and with
    their callbacks, and the delay of the reset event agrees with the cached
    day flag: 4 hours while [is_day] holds, 1 hour otherwise.  This holds
    after the set-up and after any number of passes, also when a pass ends
    with an exception. *)
Theorem Aurora_loop_keeps_reset_interval now_1 now_2 r self readings :
  is_day self = false ->
  let started := (start_loop_setup net now_1 now_2 r self).1 in
  loop_invariant net started
  /\ loop_invariant net (run_loop readings started).1
  /\ keys (Clock.events (clock (run_loop readings started).1))
     = [CHECK_EVENT; RESET_EVENT].
Proof.
  intros Hnight started.
  assert (Hstarted : loop_invariant net started).
  { subst started. unfold start_loop_setup.
    pose proof (policy_keeps_invariant r
                  (Process (World self 0 []) (register_events net now_1 now_2)))
      as Hpolicy.
    destruct (apply_daytime_policy r _) as [p1 [e|[]]].
    - apply Hpolicy. unfold loop_invariant. simpl. rewrite Hnight.
      eexists _, _. reflexivity.
    - simpl in *. destruct Hpolicy as (tc & tr & Hev).
      { unfold loop_invariant. simpl. rewrite Hnight. eexists _, _. reflexivity. }
      unfold loop_invariant. simpl. rewrite check_is_day. now exists tc, tr. }
  assert (Hrun : forall p, loop_invariant net p ->
                           loop_invariant net (run_loop readings p).1).
  { induction readings as [|[step_time r'] later IH]; intros p Hp; [exact Hp|].
    simpl. pose proof (loop_iteration_keeps_invariant step_time r' p Hp) as Hit.
    destruct (loop_iteration step_time r' p) as [p1 [e|[]]]; [exact Hit|].
    now apply IH. }
  split; [exact Hstarted|]. split; [now apply Hrun|].
  destruct (Hrun started Hstarted) as (tc & tr & ->). reflexivity.
Qed.
End Loop.


(** * Checks and resets together *)

Section ChecksAndResets.
Import Aurora.
Variable net : nat -> network.

Lemma check_frame (answers : network) self :
  exists aurora_level k_level send_time,
    after (check answers self)
    = {| api_key := api_key self; user_key := user_key self;
         latitude := latitude self; longitude := longitude self;
         language := language self; is_day := is_day self;
         last_send_time := send_time; last_k_level := k_level;
         last_aurora_level := aurora_level |}.
Proof.
  rewrite check_unfold.
  destruct (aurora_reading answers self) as [e0|[v th]];
    [destruct self; simpl; eauto|].
  cbv zeta.
  destruct (get_message_state v th last_aurora_level_var self) as (la & -> & _).
  destruct (k_index_reading answers _) as [e0|[kv kth]]; [simpl; eauto|].
  destruct (get_message_state kv kth last_k_level_var
              (setattr self last_aurora_level_var la)) as (lk & -> & _).
  destruct (truthy _); [destruct (ok (push_sink answers))|]; simpl; eauto.
Qed.

(** X24. Checks and resets, in any number and order, never touch the
    configuration of the monitor (keys, coordinates, language) nor the cached
    day flag; only the two stored levels and [last_send_time] can change. *)
Theorem Aurora_actions_keep_configuration actions self :
  api_key (run_actions actions self) = api_key self
  /\ user_key (run_actions actions self) = user_key self
  /\ latitude (run_actions actions self) = latitude self
  /\ longitude (run_actions actions self) = longitude self
  /\ language (run_actions actions self) = language self
  /\ is_day (run_actions actions self) = is_day self.
Proof.
  revert self. induction actions as [|a actions IH]; intros self; [easy|].
  unfold run_actions. simpl. fold (run_actions actions (perform self a)).
  destruct (IH (perform self a)) as (-> & -> & -> & -> & -> & ->).
  destruct a as [answers|]; simpl; [|easy].
  destruct (check_frame answers self) as (la & lk & ts & ->). easy.
Qed.

Lemma zero_crosses_no_k_index_level language th var self :
  K_INDEX_LEVELS !! language = Some th ->
  _get_message_from_levels 0 th var self = (self, None).
Proof. now intros [-> | ->]%K_INDEX_LEVELS_lookup. Qed.

(** X25. When the last K-index reading has no [kp_index], the value 0 is
    evaluated in its place: no K-index message is produced and the object is
    unchanged, whatever the readings before it hold. *)
Theorem Aurora_missing_kp_index_no_message (answers : network) self earlier latest :
  ok (k_index_feed answers) = true ->
  json (k_index_feed answers) = earlier ++ [latest] ->
  kp_index latest = None ->
  after (_evaluate_k_index_level answers self) = self
  /\ posted (_evaluate_k_index_level answers self) = []
  /\ (forall message,
        outcome (_evaluate_k_index_level answers self) <> inr (Some message))
  /\ (is_Some (K_INDEX_LEVELS !! language self) ->
      outcome (_evaluate_k_index_level answers self) = inr None).
Proof.
  intros Hok Hjson Hkp. rewrite evaluate_k_index_unfold.
  unfold k_index_reading, _download_k_index_data, getitem.
  rewrite Hok, Hjson, last_snoc, Hkp. simpl.
  destruct (K_INDEX_LEVELS !! language self) as [th|] eqn:Eth.
  - cbv zeta. rewrite (zero_crosses_no_k_index_level _ _ _ _ Eth).
    now repeat split.
  - repeat split; [discriminate | now intros [? [=]]].
Qed.

(** X26. When the check event and the reset event of the monitor are both
    due at one step, the check runs first and the reset after it: if the
    check returns, both stored levels are 0 after the step, so that what the
    check has just notified can be notified again, and both events are
    rescheduled; if the check raises, the reset is not run and both events
    stay due. *)
Theorem Aurora_check_and_reset_due_together
        (w : world) check_timer reset_timer reset_delay current_time :
  0 < check_timer < current_time ->
  0 < reset_timer < current_time ->
  let clock :=
    Clock.Make
      [(CHECK_EVENT, Clock.EventData check_timer (check_callback net) CHECK_DELAY);
       (RESET_EVENT, Clock.EventData reset_timer reset_callback reset_delay)] in
  let checked := check (net (checks_made w)) (self_ w) in
  let stepped := Clock.make_step current_time clock w in
  match outcome checked with
  | inr message =>
      stepped.2 = inr [(CHECK_EVENT, PyStr message); (RESET_EVENT, PyNone)]
      /\ self_ stepped.1.2 = after (reset (after checked))
      /\ last_aurora_level (self_ stepped.1.2) = 0
      /\ last_k_level (self_ stepped.1.2) = 0
      /\ outbox stepped.1.2 = outbox w ++ posted checked
      /\ Clock.events stepped.1.1
         = [(CHECK_EVENT,
             Clock.EventData (current_time + CHECK_DELAY) (check_callback net)
                             CHECK_DELAY);
            (RESET_EVENT,
             Clock.EventData (current_time + reset_delay) reset_callback
                             reset_delay)]
  | inl e =>
      stepped.2 = inl e
      /\ self_ stepped.1.2 = after checked
      /\ stepped.1.1 = clock
  end.
Proof.
  intros [Hc1 Hc2] [Hr1 Hr2] clock checked stepped.
  subst stepped clock. unfold Clock.make_step. cbn [Clock.events Clock.run_events].
  cbn [Clock.timer Clock.function Clock.delay].
  apply Z.ltb_lt in Hc1, Hc2, Hr1, Hr2. rewrite Hc1, Hc2, Hr1, Hr2.
  cbn [andb].
  assert (Hcheck : check_callback net w
                   = (World (after checked) (S (checks_made w))
                            (outbox w ++ posted checked),
                      match outcome checked with
                      | inl e => inl e
                      | inr m => inr (PyStr m)
                      end)) by reflexivity.
  rewrite !Hcheck. clear Hcheck.
  destruct (outcome checked) as [e|message]; [now repeat split|].
  assert (Hreset : forall w1, reset_callback w1
                              = (World (after (reset (self_ w1))) (checks_made w1)
                                       (outbox w1), inr PyNone)).
  { intros w1. unfold reset_callback. cbn [outcome reset after posted].
    now rewrite app_nil_r. }
  rewrite !Hreset. clear Hreset. now repeat split.
Qed.
End ChecksAndResets.

(** * The further theorems at concrete inputs *)

Lemma Clock_remove_unregisters_witness :
  Clock.wf monitor_clock
  /\ dict_get 1 (Clock.events (Clock.remove 1 monitor_clock)) = None
  /\ Clock.wf (Clock.remove 1 monitor_clock).
Proof.
  destruct (Clock_remove_unregisters monitor_clock 1 monitor_clock_wf)
    as (Hgone & _ & Hwf & _).
  split; [exact monitor_clock_wf|]. split; [exact Hgone | exact Hwf].
Defined.

Lemma clock_with_inactive_wf : Clock.wf clock_with_inactive.
Proof. apply Clock_wf_add, monitor_clock_wf. Defined.

Lemma Clock_inactive_event_never_fires_witness :
  Clock.wf clock_with_inactive
  /\ dict_get 3 (Clock.events clock_with_inactive)
     = Some (Clock.EventData 0 Aurora.reset_callback 0)
  /\ 0 <= 0
  /\ (3 ∉ keys (Clock.invocations_over [1061; 5000; 20000] clock_with_inactive
                  monitor_world)).
Proof.
  split; [exact clock_with_inactive_wf|]. split; [reflexivity|].
  split; [lia|].
  exact (proj1 (Clock_inactive_event_never_fires clock_with_inactive 3
                  (Clock.EventData 0 Aurora.reset_callback 0)
                  [1061; 5000; 20000] monitor_world clock_with_inactive_wf
                  eq_refl (Z.le_refl 0))).
Defined.

Lemma Clock_set_rearms_witness :
  dict_get 2 (Clock.events monitor_clock)
  = Some (Clock.EventData 4600 Aurora.reset_callback 3600)
  /\ exists self',
       Clock.set 2 0 2000 monitor_clock = (self', inr tt)
       /\ dict_get 2 (Clock.events self')
          = Some (Clock.EventData 0 Aurora.reset_callback 0).
Proof.
  split; [reflexivity|].
  destruct (Clock_set_rearms monitor_clock 2
              (Clock.EventData 4600 Aurora.reset_callback 3600) 0 2000 eq_refl)
    as (self' & Hset & Hget & _).
  exists self'. split; [exact Hset | exact Hget].
Defined.

Lemma Clock_make_step_raise_leaves_event_due_witness :
  (Clock.make_step 5000 reset_then_failing_check monitor_world).2
  = inl (ConnectionError K_INDEX_URL 503 "Service Unavailable")
  /\ Clock.invocations 5000 reset_then_failing_check monitor_world
     = [(2, inr Aurora.PyNone);
        (1, inl (ConnectionError K_INDEX_URL 503 "Service Unavailable"))]
  /\ Clock.events (Clock.make_step 5000 reset_then_failing_check monitor_world).1.1
     = [(2, Clock.EventData 8600 Aurora.reset_callback 3600);
        (1, Clock.EventData 1060
              (Aurora.check_callback (fun _ => k_index_down)) 60)]
  /\ (1 ∈ Clock.due_ids 5000
            (Clock.make_step 5000 reset_then_failing_check monitor_world).1.1).
Proof.
  destruct (Clock_make_step_raise_leaves_event_due reset_then_failing_check
              monitor_world 5000 _ _ _ eq_refl)
    as (before & id & e & after & returned & Hev & _ & Hlog & _ & Hev' & Hdue).
  assert (Hinv : Clock.invocations 5000 reset_then_failing_check monitor_world
                 = [(2, inr Aurora.PyNone)]
                   ++ [(1, inl (ConnectionError K_INDEX_URL 503
                                  "Service Unavailable"))]) by reflexivity.
  rewrite Hinv in Hlog. apply app_inj_tail in Hlog as [_ Hid].
  injection Hid as <-.
  change (Clock.events reset_then_failing_check)
    with [(2, Clock.EventData 4600 Aurora.reset_callback 3600);
          (1, Clock.EventData 1060
                (Aurora.check_callback (fun _ => k_index_down)) 60)] in Hev.
  destruct before as [|first [|second before]]; simpl in Hev.
  - discriminate.
  - injection Hev as <- <- <-.
    split; [reflexivity|]. split; [exact Hinv|].
    split; [exact Hev' | exact Hdue].
  - injection Hev as _ _ Hrest. now destruct before.
Defined.

Lemma monitor_clock_armed : Clock.armed monitor_clock.
Proof. repeat constructor. Defined.

Lemma Clock_make_step_again_fires_nothing_witness :
  Clock.armed monitor_clock
  /\ (Clock.make_step 1061 monitor_clock monitor_world).2
     = inr [(1, Aurora.PyStr "")]
  /\ 1061 <= 1061
  /\ Clock.invocations 1061 (Clock.make_step 1061 monitor_clock monitor_world).1.1
       monitor_world = [].
Proof.
  split; [exact monitor_clock_armed|]. split; [reflexivity|]. split; [lia|].
  exact (proj1 (proj2 (Clock_make_step_again_fires_nothing monitor_clock
                         monitor_world 1061 _ _ _ 1061 monitor_world
                         monitor_clock_armed eq_refl (Z.le_refl 1061)))).
Defined.

Lemma Clock_operations_keep_invariants_witness :
  Clock.wf monitor_clock /\ Clock.armed monitor_clock
  /\ Clock.wf (Clock.run_steps [1061; 1062; 5000] monitor_clock monitor_world).1
  /\ Clock.armed (Clock.run_steps [1061; 1062; 5000] monitor_clock monitor_world).1.
Proof.
  destruct (Clock_operations_keep_invariants monitor_clock monitor_clock_wf
              monitor_clock_armed) as (_ & _ & _ & Hsteps).
  split; [exact monitor_clock_wf|]. split; [exact monitor_clock_armed|].
  exact (Hsteps [1061; 1062; 5000] monitor_world).
Defined.

Lemma noon_valid : datetime.valid noon.
Proof. unfold datetime.valid. simpl. lia. Defined.

Lemma Aurora_is_daytime_window_witness :
  datetime.valid noon /\ Aurora.is_daytime noon = true
  /\ 6 <= datetime.hour noon.
Proof.
  split; [exact noon_valid|]. split; [reflexivity|].
  exact (proj1 (proj1 (Aurora_is_daytime_window noon noon_valid) eq_refl)).
Defined.

Lemma Aurora_check_message_composition_witness :
  Aurora.outcome (Aurora.check (answering 55 7 1000) english_monitor)
  = inr ("Locally: 50. Something might happen. Take a break."
         +:+ Aurora.newline
         +:+ "Globally: 7. There is a lot of chance today.")%string
  /\ exists aurora_result k_index_result,
       Aurora.outcome
         (Aurora._evaluate_aurora_level (answering 55 7 1000) english_monitor)
       = inr aurora_result
       /\ Aurora.outcome
            (Aurora._evaluate_k_index_level (answering 55 7 1000)
               (Aurora.after
                  (Aurora._evaluate_aurora_level (answering 55 7 1000)
                     english_monitor)))
          = inr k_index_result.
Proof.
  split; [reflexivity|].
  destruct (Aurora_check_message_composition (answering 55 7 1000) english_monitor
              _ eq_refl) as (a & k & Ha & Hk & _).
  exists a, k. split; [exact Ha | exact Hk].
Defined.

Lemma Aurora_push_failure_not_resent_witness :
  ok (push_sink push_down) = false
  /\ Aurora.posted (Aurora.check push_down english_monitor) <> []
  /\ Aurora.outcome (Aurora.check push_down english_monitor)
     = inl (ConnectionError PUSH_URL 500 "Internal Server Error")
  /\ Aurora.posted
       (Aurora.check (answering 55 7 1060)
          (Aurora.after (Aurora.check push_down english_monitor)))
     = [].
Proof.
  assert (Hposted : Aurora.posted (Aurora.check push_down english_monitor) <> [])
    by discriminate.
  destruct (Aurora_push_failure_not_resent push_down (answering 55 7 1060)
              english_monitor eq_refl Hposted eq_refl eq_refl)
    as (Hout & _ & Hagain).
  split; [reflexivity|]. split; [exact Hposted|].
  split; [exact Hout | exact Hagain].
Defined.

Lemma Aurora_unsupported_language_never_notifies_witness :
  Aurora.AURORA_LEVELS !! Aurora.language german_monitor = None
  /\ Aurora.after (Aurora.check (answering 95 9 1000) german_monitor)
     = german_monitor
  /\ Aurora.posted (Aurora.check (answering 95 9 1000) german_monitor) = [].
Proof.
  split; [reflexivity|].
  destruct (Aurora_unsupported_language_never_notifies (answering 95 9 1000)
              german_monitor eq_refl) as (Hafter & Hposted & _).
  split; [exact Hafter | exact Hposted].
Defined.

Lemma Aurora_k_index_uses_last_reading_witness :
  ok k_index_answer = true
  /\ json k_index_answer
     = [KReading (Some "2024-05-10T20:58:00") (Some 9%Q); KReading None None]
       ++ [KReading (Some "2024-05-10T21:00:00") (Some (14 # 3)%Q)]
  /\ Aurora._download_k_index_data k_index_answer
     = inr ("2024-05-10 21:00:00"%string, (14 # 3)%Q).
Proof.
  split; [reflexivity|]. split; [reflexivity|].
  exact (proj1 (Aurora_k_index_uses_last_reading k_index_answer
                  [KReading (Some "2024-05-10T20:58:00") (Some 9%Q);
                   KReading None None]
                  (KReading (Some "2024-05-10T21:00:00") (Some (14 # 3)%Q))
                  eq_refl eq_refl)).
Defined.

Lemma AURORA_LEVELS_en_descending : Aurora.descending Aurora.AURORA_LEVELS_en.
Proof. exact (tables_descending "en" _ (or_introl eq_refl)). Defined.

Lemma Aurora_scan_fires_highest_crossed_level_witness :
  Aurora.descending Aurora.AURORA_LEVELS_en
  /\ (Aurora._get_message_from_levels 95 Aurora.AURORA_LEVELS_en
        Aurora.last_aurora_level_var english_monitor).2
     = Some "Locally: 90. You have it on your head!"%string
  /\ exists level,
       Aurora.getattr
         (Aurora._get_message_from_levels 95 Aurora.AURORA_LEVELS_en
            Aurora.last_aurora_level_var english_monitor).1
         Aurora.last_aurora_level_var = level
       /\ 80 <= level.
Proof.
  split; [exact AURORA_LEVELS_en_descending|]. split; [reflexivity|].
  destruct (Aurora_scan_fires_highest_crossed_level 95 Aurora.AURORA_LEVELS_en
              Aurora.last_aurora_level_var english_monitor _
              AURORA_LEVELS_en_descending eq_refl) as (level & _ & Hlevel & Hmax).
  exists level. split; [exact Hlevel|].
  apply (Hmax (80, "Locally: 80. Very likely!"%string)).
  - apply elem_of_cons. right. apply elem_of_cons. now left.
  - discriminate.
Defined.

Lemma AURORA_LEVELS_en_distinct : NoDup Aurora.AURORA_LEVELS_en.*2.
Proof. exact (aurora_messages_distinct "en" _ eq_refl). Defined.

Lemma Aurora_scans_emit_each_message_once_witness :
  NoDup Aurora.AURORA_LEVELS_en.*2
  /\ NoDup (Aurora.scan_all [35; 55; 55; 95; 60]%Q Aurora.AURORA_LEVELS_en
              Aurora.last_aurora_level_var english_monitor)
  /\ Aurora.scan_all [35; 55; 55; 95; 60]%Q Aurora.AURORA_LEVELS_en
       Aurora.last_aurora_level_var english_monitor
     = ["Locally: 30. If you have a lot of happiness";
        "Locally: 50. Something might happen. Take a break.";
        "Locally: 90. You have it on your head!"]%string.
Proof.
  split; [exact AURORA_LEVELS_en_distinct|]. split; [|reflexivity].
  exact (proj1 (Aurora_scans_emit_each_message_once [35; 55; 55; 95; 60]%Q
                  Aurora.AURORA_LEVELS_en Aurora.last_aurora_level_var
                  english_monitor AURORA_LEVELS_en_distinct)).
Defined.

Lemma Aurora_loop_keeps_reset_interval_witness :
  Aurora.is_day english_monitor = false
  /\ keys (Clock.events
             (Aurora.clock
                (Aurora.run_loop
                   [(1003, Aurora.PolicyReading noon noon 1003);
                    (1061, Aurora.PolicyReading noon noon 1061)]
                   (Aurora.start_loop_setup (fun _ => answering 55 7 1000)
                      1000 1000 (Aurora.PolicyReading noon noon 1000)
                      english_monitor).1).1))
     = [Aurora.CHECK_EVENT; Aurora.RESET_EVENT].
Proof.
  split; [reflexivity|].
  exact (proj2 (proj2 (Aurora_loop_keeps_reset_interval
                         (fun _ => answering 55 7 1000) 1000 1000
                         (Aurora.PolicyReading noon noon 1000) english_monitor
                         [(1003, Aurora.PolicyReading noon noon 1003);
                          (1061, Aurora.PolicyReading noon noon 1061)]
                         eq_refl))).
Defined.

Lemma Aurora_missing_kp_index_no_message_witness :
  ok (k_index_feed kp_missing) = true
  /\ json (k_index_feed kp_missing)
     = [KReading (Some "2024-05-10T20:59:00") (Some 9%Q)]
       ++ [KReading (Some "2024-05-10T21:00:00") None]
  /\ kp_index (KReading (Some "2024-05-10T21:00:00") None) = None
  /\ Aurora.outcome (Aurora._evaluate_k_index_level kp_missing english_monitor)
     = inr None.
Proof.
  split; [reflexivity|]. split; [reflexivity|]. split; [reflexivity|].
  destruct (Aurora_missing_kp_index_no_message kp_missing english_monitor
              [KReading (Some "2024-05-10T20:59:00") (Some 9%Q)]
              (KReading (Some "2024-05-10T21:00:00") None) eq_refl eq_refl eq_refl)
    as (_ & _ & _ & Hout).
  exact (Hout (ex_intro _ Aurora.K_INDEX_LEVELS_en eq_refl)).
Defined.

Lemma Aurora_check_and_reset_due_together_witness :
  0 < 1060 < 5000 /\ 0 < 4600 < 5000
  /\ Aurora.last_aurora_level
       (Aurora.self_
          (Clock.make_step 5000
             (Aurora.register_events (fun _ => answering 55 7 1000) 1000 1000)
             (Aurora.World english_monitor 0 [])).1.2) = 0
  /\ Aurora.outbox
       (Clock.make_step 5000
          (Aurora.register_events (fun _ => answering 55 7 1000) 1000 1000)
          (Aurora.World english_monitor 0 [])).1.2
     = [("Locally: 50. Something might happen. Take a break."
         +:+ Aurora.newline
         +:+ "Globally: 7. There is a lot of chance today.")%string].
Proof.
  assert (H1 : 0 < 1060 < 5000) by lia.
  assert (H2 : 0 < 4600 < 5000) by lia.
  split; [exact H1|]. split; [exact H2|].
  pose proof (Aurora_check_and_reset_due_together (fun _ => answering 55 7 1000)
                (Aurora.World english_monitor 0 []) 1060 4600 3600 5000 H1 H2)
    as H.
  cbv zeta in H.
  change (Aurora.outcome
            (Aurora.check (answering 55 7 1000)
               (Aurora.self_ (Aurora.World english_monitor 0 []))))
    with (@inr exn string
            ("Locally: 50. Something might happen. Take a break."
             +:+ Aurora.newline
             +:+ "Globally: 7. There is a lot of chance today.")%string) in H.
  destruct H as (_ & _ & Hlevel & _ & Hout & _).
  split; [exact Hlevel | exact Hout].
Defined.
